(** * vol_toolkit.realized_vol: realized volatility estimators and the
      GARCH(1,1) forecast

    A shallow embedding of [src/vol_toolkit/realized_vol.py] and the
    properties its specification states about it.

    Numbers.  A Python/numpy [float64] is idealised: a finite value is a
    real number and arithmetic on finite values is exact; the IEEE special
    values [+inf], [-inf] and [NaN] are kept, with the IEEE rules for them.
    Rounding error, overflow, underflow and the sign of zero are not
    modelled (a zero divisor is taken as [+0.0]).  Equalities and
    exact zeros in the theorems are those of the formulas: where float64
    rounds the two sides of an equality differently, the computed values
    can differ in their last bits.

    Series.  A [pd.Series] is the list of its values under the default
    [RangeIndex] [0 .. n-1]; a missing value is [NaN].

    Exceptions.  A function that can raise returns a [result]. *)

From Stdlib Require Import Reals Lra Lia ZArith List String Ascii Bool.
From Stdlib Require Import DecimalString.
Import ListNotations.

Open Scope R_scope.

(** ** Exceptions *)

Inductive exn : Type :=
| ValueError (msg : string)
| IndexError (msg : string)
| ZeroDivisionError (msg : string).

Inductive result (A : Type) : Type :=
| Ok (a : A)
| Raise (e : exn).

Arguments Ok {A} a.
Arguments Raise {A} e.

Definition bind {A B : Type} (m : result A) (k : A -> result B) : result B :=
  match m with
  | Ok a => k a
  | Raise e => Raise e
  end.

Notation "x <- m ;; k" := (bind m (fun x => k))
  (at level 61, m at next level, right associativity).

(** [str(n)] for a Python [int]. *)
Definition str (n : Z) : string := NilZero.string_of_int (Z.to_int n).

(** [needle in hay] for Python strings. *)
Fixpoint contains (needle hay : string) : bool :=
  prefix needle hay ||
  match hay with
  | EmptyString => false
  | String _ hay' => contains needle hay'
  end.

(** ** Idealised float64 *)

Module Float64.

Inductive float64 : Type :=
| Num (r : R)
| PInf
| NInf
| NaN.

Definition Rltb (x y : R) : bool := if Rlt_dec x y then true else false.
Definition Reqb (x y : R) : bool := if Req_dec_T x y then true else false.

Definition inf (negative : bool) : float64 := if negative then NInf else PInf.

Definition is_nan (x : float64) : bool :=
  match x with NaN => true | _ => false end.

(** [x < y]; every comparison with [NaN] is [False]. *)
Definition flt (x y : float64) : bool :=
  match x, y with
  | NaN, _ | _, NaN => false
  | Num a, Num b => Rltb a b
  | _, NInf => false
  | NInf, _ => true
  | PInf, _ => false
  | Num _, PInf => true
  end.

Definition fneg (x : float64) : float64 :=
  match x with
  | Num a => Num (- a)
  | PInf => NInf
  | NInf => PInf
  | NaN => NaN
  end.

Definition fadd (x y : float64) : float64 :=
  match x, y with
  | NaN, _ | _, NaN => NaN
  | Num a, Num b => Num (a + b)
  | PInf, NInf | NInf, PInf => NaN
  | PInf, _ | _, PInf => PInf
  | NInf, _ | _, NInf => NInf
  end.

Definition fsub (x y : float64) : float64 := fadd x (fneg y).

Definition fmul (x y : float64) : float64 :=
  match x, y with
  | NaN, _ | _, NaN => NaN
  | Num a, Num b => Num (a * b)
  | Num a, PInf | PInf, Num a => if Reqb a 0 then NaN else inf (Rltb a 0)
  | Num a, NInf | NInf, Num a => if Reqb a 0 then NaN else inf (negb (Rltb a 0))
  | PInf, PInf | NInf, NInf => PInf
  | PInf, NInf | NInf, PInf => NInf
  end.

(** numpy division: a zero divisor gives an infinity or [NaN], never an
    exception. *)
Definition fdiv (x y : float64) : float64 :=
  match x, y with
  | NaN, _ | _, NaN => NaN
  | Num a, Num b =>
      if Reqb b 0
      then (if Reqb a 0 then NaN else inf (Rltb a 0))
      else Num (a / b)
  | Num _, PInf | Num _, NInf => Num 0
  | PInf, Num b => inf (Rltb b 0)
  | NInf, Num b => inf (negb (Rltb b 0))
  | PInf, PInf | PInf, NInf | NInf, PInf | NInf, NInf => NaN
  end.

(** [x ** n] for a float [x] and a Python [int] [n] (C [pow]). *)
Definition fpow (x : float64) (n : Z) : float64 :=
  match x with
  | Num a =>
      if (n <? 0)%Z && Reqb a 0 then PInf else Num (powerRZ a n)
  | PInf =>
      if (n =? 0)%Z then Num 1 else if (n <? 0)%Z then Num 0 else PInf
  | NInf =>
      if (n =? 0)%Z then Num 1
      else if (n <? 0)%Z then Num 0
      else if Z.odd n then NInf else PInf
  | NaN => if (n =? 0)%Z then Num 1 else NaN
  end.

(** [np.log]: [-inf] at zero, [NaN] below it. *)
Definition np_log (x : float64) : float64 :=
  match x with
  | Num a => if Rltb 0 a then Num (ln a) else if Reqb a 0 then NInf else NaN
  | PInf => PInf
  | NInf => NaN
  | NaN => NaN
  end.

(** [np.sqrt]: [NaN] on a negative argument. *)
Definition np_sqrt (x : float64) : float64 :=
  match x with
  | Num a => if Rltb a 0 then NaN else Num (sqrt a)
  | PInf => PInf
  | NInf => NaN
  | NaN => NaN
  end.

Definition math_domain_error : exn := ValueError "math domain error".

(** [math.sqrt]: raises on a negative argument. *)
Definition math_sqrt (x : float64) : result float64 :=
  match x with
  | Num a => if Rltb a 0 then Raise math_domain_error else Ok (Num (sqrt a))
  | PInf => Ok PInf
  | NInf => Raise math_domain_error
  | NaN => Ok NaN
  end.

(** [math.log]: raises on a non-positive argument. *)
Definition math_log (x : float64) : result float64 :=
  match x with
  | Num a => if Rltb 0 a then Ok (Num (ln a)) else Raise math_domain_error
  | PInf => Ok PInf
  | NInf => Raise math_domain_error
  | NaN => Ok NaN
  end.

(** [x / y] on Python floats: raises on a zero divisor. *)
Definition py_truediv (x y : float64) : result float64 :=
  match y with
  | Num b =>
      if Reqb b 0 then Raise (ZeroDivisionError "float division by zero")
      else Ok (fdiv x y)
  | _ => Ok (fdiv x y)
  end.

(** The builtin [max(a, b)] of two arguments: [b] when [b > a], else [a]. *)
Definition py_max (a b : float64) : float64 := if flt a b then b else a.

(** Nearest integer, ties to the even one. *)
Definition round_half_even (x : R) : Z :=
  let f := Int_part x in
  let d := x - IZR f in
  if Rltb d (1 / 2) then f
  else if Rltb (1 / 2) d then (f + 1)%Z
  else if Z.even f then f else (f + 1)%Z.

(** [round(x, ndigits)]; a non-finite [x] is returned unchanged. *)
Definition py_round (x : float64) (ndigits : nat) : float64 :=
  match x with
  | Num a => Num (IZR (round_half_even (a * 10 ^ ndigits)) / 10 ^ ndigits)
  | _ => x
  end.

End Float64.
Import Float64.

(** ** pandas Series operations *)

Module Series.

Definition Series : Type := list float64.

Definition len (s : Series) : Z := Z.of_nat (List.length s).

(** [s.shift(1)] *)
Definition shift1 (s : Series) : Series :=
  match s with
  | [] => []
  | _ :: _ => NaN :: removelast s
  end.

(** An elementwise binary operation on two series: the operands are aligned
    on the union of their indexes and a label present in only one of them
    pairs with [NaN]. *)
Fixpoint binop (f : float64 -> float64 -> float64) (a b : Series) : Series :=
  match a with
  | [] => map (fun y => f NaN y) b
  | x :: a' =>
      match b with
      | [] => map (fun x' => f x' NaN) a
      | y :: b' => f x y :: binop f a' b'
      end
  end.

Definition div (a b : Series) : Series := binop fdiv a b.

Definition log (s : Series) : Series := map np_log s.

(** [s ** n] *)
Definition pow (s : Series) (n : Z) : Series := map (fun x => fpow x n) s.

(** [s * c] *)
Definition scale (s : Series) (c : float64) : Series :=
  map (fun x => fmul x c) s.

(** [s.dropna()]: infinities are kept. *)
Definition dropna (s : Series) : Series :=
  filter (fun x => negb (is_nan x)) s.

(** The slice [s.iloc[start:]] with Python's rules: a negative [start]
    counts from the end, and the bound is clamped to the series. *)
Definition iloc_from (start : Z) (s : Series) : Series :=
  let n := len s in
  let i := if (start <? 0)%Z then Z.max 0 (start + n) else Z.min start n in
  skipn (Z.to_nat i) s.

(** [s.iloc[-1]] *)
Definition iloc_last (s : Series) : result float64 :=
  match s with
  | [] => Raise (IndexError "single positional indexer is out-of-bounds")
  | _ :: _ => Ok (last s NaN)
  end.

Definition sum (s : Series) : float64 := fold_right fadd (Num 0) s.

(** [s.mean()] with the default [skipna=True]. *)
Definition mean (s : Series) : float64 :=
  let xs := dropna s in
  match xs with
  | [] => NaN
  | _ :: _ => fdiv (sum xs) (Num (INR (List.length xs)))
  end.

(** [s.var()] with the defaults [ddof=1, skipna=True]: the two-pass
    formula of [pandas.core.nanops.nanvar]. *)
Definition var (s : Series) : float64 :=
  let xs := dropna s in
  let count := List.length xs in
  if (count <=? 1)%nat then NaN
  else
    let avg := fdiv (sum xs) (Num (INR count)) in
    let sqr := map (fun v => fpow (fsub avg v) 2) xs in
    fdiv (sum sqr) (Num (INR count - 1)).

(** [s.std()] *)
Definition std (s : Series) : float64 := np_sqrt (var s).

End Series.
Import Series.

(** ** The module under verification *)

Definition TRADING_DAYS_PER_YEAR : float64 := Num 252.

(** [math.sqrt(TRADING_DAYS_PER_YEAR)] *)
Definition sqrt_trading_days : float64 := Num (sqrt 252).

(** The cleaned log returns of a price series:
    [np.log(prices / prices.shift(1)).dropna()]. *)
Definition log_returns (prices : Series) : Series :=
  dropna (Series.log (div prices (shift1 prices))).

Definition calculate_realized_vol
    (prices : Series) (window : Z) (annualize : bool) : result float64 :=
  let log_returns := log_returns prices in
  if (len log_returns <? window)%Z then
    Raise (ValueError ("Need at least " ++ str window ++ " returns, got "
                         ++ str (len log_returns))%string)
  else
    let vol := std (iloc_from (- window) log_returns) in
    let vol := if annualize then fmul vol sqrt_trading_days else vol in
    Ok vol.

Definition calculate_parkinson_vol
    (high low : Series) (window : Z) : result float64 :=
  if (len high <? window)%Z || (len low <? window)%Z then
    Raise (ValueError ("Need at least " ++ str window ++ " data points")%string)
  else
    let log_hl := Series.log (div high low) in
    let recent := iloc_from (- window) log_hl in
    let factor := fdiv (Num 1) (fmul (Num 4) (Num (ln 2))) in
    let variance := fmul factor (mean (pow recent 2)) in
    math_sqrt (fmul variance TRADING_DAYS_PER_YEAR).

(** *** GARCH(1,1) forecast *)

(** What [forecast_garch] reads from the result of [arch_model(...).fit()]:
    [params["omega"]], [params["alpha[1]"]], [params["beta[1]"]] and
    [conditional_volatility]. *)
Record ARCHModelResult : Type := {
  omega : float64;
  alpha : float64;
  beta : float64;
  conditional_volatility : Series
}.

(** The dictionary [forecast_garch] returns, one field per key. *)
Record GarchForecast : Type := {
  current_vol : float64;
  forecast_vol : float64;
  persistence : float64;
  half_life : float64
}.

(** Unconditional (long-run) variance. *)
Definition long_run_var_of (omega persistence current_var : float64) : float64 :=
  if flt persistence (Num 1) then fdiv omega (fsub (Num 1) persistence)
  else current_var.

(** Multi-step forecast: h-step variance. *)
Definition forecast_var_of
    (long_run_var persistence current_var : float64) (horizon : Z) : float64 :=
  fadd long_run_var
       (fmul (fpow persistence horizon) (fsub current_var long_run_var)).

(** [math.sqrt(variance) / 100.0 * math.sqrt(TRADING_DAYS_PER_YEAR)]: back
    from percent to decimal, annualized.  The divisor [100.0] is not zero,
    so this Python division cannot raise. *)
Definition annualized_vol_of (variance : float64) : result float64 :=
  s <- math_sqrt variance ;;
  Ok (fmul (fdiv s (Num 100)) sqrt_trading_days).

(** Half-life of vol shocks. *)
Definition half_life_of (persistence : float64) : result float64 :=
  if flt (Num 0) persistence && flt persistence (Num 1) then
    l2 <- math_log (Num 2) ;;
    lp <- math_log persistence ;;
    py_truediv l2 (fneg lp)
  else Ok PInf.

Section Forecast.

(** The maximum-likelihood fit of the [arch] package,
    [arch_model(scaled, vol="GARCH", p=1, q=1, mean="Zero",
    rescale=False).fit(...)]: an external library, taken as a parameter.
    It may raise.  The import of the package, the first statement of the
    function, is taken to succeed. *)
Variable arch_fit : Series -> result ARCHModelResult.

Definition forecast_garch (returns : Series) (horizon : Z)
  : result GarchForecast :=
  let scaled := scale (dropna returns) (Num 100) in
  if (len scaled <? 100)%Z then
    Raise (ValueError "Need at least 100 returns for GARCH estimation")
  else
    res <- arch_fit scaled ;;
    let persistence := fadd (alpha res) (beta res) in
    c <- iloc_last (conditional_volatility res) ;;
    let current_var := fpow c 2 in
    let long_run_var := long_run_var_of (omega res) persistence current_var in
    let forecast_var :=
      forecast_var_of long_run_var persistence current_var horizon in
    current_vol <- annualized_vol_of current_var ;;
    forecast_vol <- annualized_vol_of (py_max forecast_var (Num 0)) ;;
    half_life <- half_life_of persistence ;;
    Ok {| current_vol := py_round current_vol 4;
          forecast_vol := py_round forecast_vol 4;
          persistence := py_round persistence 4;
          half_life := py_round half_life 1 |}.

End Forecast.

(** * Vocabulary of the specification *)

(** A finite number (neither an infinity nor [NaN]). *)
Definition finite (x : float64) : Prop :=
  match x with Num _ => True | _ => False end.

(** A positive finite number: what the data model calls a price. *)
Definition positive (x : float64) : Prop :=
  match x with Num r => 0 < r | _ => False end.

(** A price series with gaps: every entry is a price or is missing. *)
Definition price_or_missing (x : float64) : Prop :=
  match x with Num r => 0 < r | NaN => True | _ => False end.

(** Not below zero: a non-negative number, [+inf] or [NaN]. *)
Definition not_negative (x : float64) : Prop :=
  match x with Num r => 0 <= r | NInf => False | _ => True end.

Definition finite_or_nan (x : float64) : Prop :=
  match x with Num _ | NaN => True | _ => False end.

(** All the entries of a list are one and the same value. *)
Definition all_identical {A : Type} (l : list A) : Prop :=
  forall x y, In x l -> In y l -> x = y.

(** The last [w] entries of a list (all of them when there are fewer). *)
Definition lastn {A : Type} (w : nat) (l : list A) : list A :=
  skipn (List.length l - w) l.

Definition Rsum (l : list R) : R := fold_right Rplus 0 l.

(** The specification's [InsufficientData]: the module has no exception
    class of its own, the error it raises for a series that is too short is
    a [ValueError] whose message starts "Need at least". *)
Definition insufficient_data (e : exn) : bool :=
  match e with
  | ValueError msg => prefix "Need at least " msg
  | _ => false
  end.

(** The error message shows the count [n]. *)
Definition carries (n : Z) (e : exn) : bool :=
  match e with
  | ValueError msg | IndexError msg | ZeroDivisionError msg =>
      contains (str n) msg
  end.

(** The Parkinson estimate as the specification words it: over the last
    [w] paired observations, the mean of the squared [log(high/low)], times
    [1 / (4 ln 2)], times 252, square root.  The mean of no observation is
    [NaN]. *)
Definition spec_parkinson_vol (hs ls : list R) (w : nat) : float64 :=
  let obs := lastn w (combine hs ls) in
  let squares := map (fun '(h, l) => Rsqr (ln (h / l))) obs in
  match obs with
  | [] => NaN
  | _ :: _ =>
      Num (sqrt (1 / (4 * ln 2) * (Rsum squares / INR (List.length obs)) * 252))
  end.

(** A stand-in for the external fit, for concrete runs: it returns the given
    parameters and, as conditional volatility, the series it was given. *)
Definition constant_fit (omega alpha beta : R) (scaled : Series)
  : result ARCHModelResult :=
  Ok {| omega := Num omega; alpha := Num alpha; beta := Num beta;
        conditional_volatility := scaled |}.

(** The sample variance (denominator [n - 1]) of a list of reals. *)
Definition sample_var (xs : list R) : R :=
  let n := INR (List.length xs) in
  let avg := Rsum xs / n in
  Rsum (map (fun x => Rsqr (avg - x)) xs) / (n - 1).

(** The long-run variance as the specification words it: [omega / (1 -
    persistence)] when [persistence < 1], the current variance when
    [persistence >= 1]. *)
Definition spec_long_run_var (omega persistence current_var : R) : R :=
  if Rle_dec 1 persistence then current_var
  else omega / (1 - persistence).

(** The h-step forecast variance as the specification words it. *)
Definition spec_forecast_var
    (omega persistence current_var : R) (h : nat) : R :=
  let long_run_var := spec_long_run_var omega persistence current_var in
  long_run_var + persistence ^ h * (current_var - long_run_var).

(** The half-life [forecast_garch] computes before rounding, for a finite
    persistence. *)
Definition half_life_value (persistence : R) : float64 :=
  if Rlt_dec 0 persistence then
    if Rlt_dec persistence 1 then Num (ln 2 / - ln persistence) else PInf
  else PInf.

(** A return series of 100 observations, for concrete runs. *)
Definition sample_returns : Series := repeat (Num (1 / 100)) 100.

(** The log returns of consecutive prices: [ln (p[t] / p[t-1])] for each
    [t >= 1]. *)
Definition adjacent_log_returns (ps : list R) : list R :=
  map (fun '(b, a) => ln (b / a)) (combine (tl ps) ps).

(** * The callers: vol_toolkit.iv_tracker *)

(** [x <= y]; every comparison with [NaN] is [False]. *)
Definition fle (x y : float64) : bool :=
  match x, y with
  | NaN, _ | _, NaN => false
  | Num a, Num b => negb (Rltb b a)
  | NInf, _ => true
  | _, PInf => true
  | _, _ => false
  end.

(** [x >= y] *)
Definition fge (x y : float64) : bool := fle y x.

(** [np.maximum] and [np.minimum]: [NaN] when either argument is. *)
Definition fmaximum (x y : float64) : float64 :=
  if is_nan x || is_nan y then NaN else if flt x y then y else x.

Definition fminimum (x y : float64) : float64 :=
  if is_nan x || is_nan y then NaN else if flt y x then y else x.

(** [np.max] and [np.min] of an array: they raise on an empty one. *)
Definition np_max (values : Series) : result float64 :=
  match values with
  | [] =>
      Raise (ValueError
        "zero-size array to reduction operation maximum which has no identity")
  | x :: xs => Ok (fold_left fmaximum xs x)
  end.

Definition np_min (values : Series) : result float64 :=
  match values with
  | [] =>
      Raise (ValueError
        "zero-size array to reduction operation minimum which has no identity")
  | x :: xs => Ok (fold_left fminimum xs x)
  end.

(** [np.sum(values <= x)]: how many entries are at most [x]. *)
Definition count_le (values : Series) (x : float64) : nat :=
  List.length (filter (fun v => fle v x) values).

(** Rolling windows take an infinity for a missing value. *)
Definition inf_to_nan (x : float64) : float64 :=
  match x with
  | PInf | NInf => NaN
  | _ => x
  end.

(** The window of [w] entries ending at position [i] (shorter at the start
    of the series). *)
Definition rolling_window (w : nat) (values : Series) (i : nat) : Series :=
  lastn w (firstn (S i) values).

(** One entry of [s.rolling(w).std()] with the defaults
    [min_periods=w] and [ddof=1]: the sample standard deviation of the
    window ending at position [i], [NaN] where the window holds fewer than
    [w] observations.  The online update of pandas is idealised to the
    two-pass formula. *)
Definition rolling_std_at (w : nat) (values : Series) (i : nat) : float64 :=
  let win := rolling_window w values i in
  if (List.length (dropna win) <? w)%nat then NaN else std win.

(** [s.rolling(window).std()]; a negative window is refused. *)
Definition rolling_std (window : Z) (s : Series) : result Series :=
  if (window <? 0)%Z then
    Raise (ValueError "window must be an integer 0 or greater")
  else
    Ok (map (rolling_std_at (Z.to_nat window) (map inf_to_nan s))
            (seq 0 (List.length s))).

(** Compute rolling historical volatility series. *)
Definition _hv_series (prices : Series) (window : Z) : result Series :=
  let log_ret := Series.log (div prices (shift1 prices)) in
  r <- rolling_std window log_ret ;;
  Ok (scale r sqrt_trading_days).

Module IvTracker.

(** The dictionary [get_iv_percentile] returns, one field per key. *)
Record IvPercentile : Type := {
  ticker : string;
  current_iv : float64;
  iv_percentile : float64;
  iv_rank : float64;
  high_iv : float64;
  low_iv : float64;
  signal : string
}.

(** [get_iv_percentile] after its two external calls.  The download is
    external: [close] is the cleaned close series
    [data["Close"].squeeze().dropna()] of a non-empty download.  So is the
    options chain: [atm_iv] is what [_try_get_atm_iv(ticker)] returned,
    [None] when no implied volatility could be read. *)
Definition get_iv_percentile
    (ticker : string) (close : Series) (atm_iv : option float64)
  : result IvPercentile :=
  hv_all <- _hv_series close 20 ;;
  let hv := dropna hv_all in
  if (len hv <? 20)%Z then
    Raise (ValueError ("Insufficient data for " ++ ticker)%string)
  else
    current_iv <- match atm_iv with
                  | Some iv => Ok iv
                  | None => iloc_last hv
                  end ;;
    let hv_values := hv in
    let iv_percentile :=
      fmul (fdiv (Num (INR (count_le hv_values current_iv)))
                 (Num (INR (List.length hv_values))))
           (Num 100) in
    high_iv <- np_max hv_values ;;
    low_iv <- np_min hv_values ;;
    let iv_range := fsub high_iv low_iv in
    iv_rank <- (if flt (Num 0) iv_range then
                  q <- py_truediv (fsub current_iv low_iv) iv_range ;;
                  Ok (fmul q (Num 100))
                else Ok (Num 50)) ;;
    let signal :=
      if fge iv_percentile (Num 75) then "SELL"%string
      else if fle iv_percentile (Num 25) then "WAIT"%string
      else "NEUTRAL"%string in
    Ok {| ticker := ticker;
          current_iv := py_round current_iv 4;
          iv_percentile := py_round iv_percentile 1;
          iv_rank := py_round iv_rank 1;
          high_iv := py_round high_iv 4;
          low_iv := py_round low_iv 4;
          signal := signal |}.

End IvTracker.

(** * The callers: vol_toolkit.premium_scanner *)

Module PremiumScanner.

(** The dictionary [_scan_single] returns, one field per key. *)
Record Row : Type := {
  ticker : string;
  current_iv : float64;
  realized_vol_20d : float64;
  premium : float64;
  premium_pct : float64;
  iv_percentile : float64;
  signal : string
}.

(** [a - b] on two arrays of one length. *)
Definition array_sub (a b : Series) : Series :=
  map (fun '(x, y) => fsub x y) (combine a b).

(** [_scan_single] after its two external calls.  [close] is the cleaned
    close series [data["Close"].squeeze().dropna()] of a download of at
    least 30 rows, and [atm_iv] is what [_try_get_atm_iv(ticker)]
    returned.  The result is [None] where the function returns [None]. *)
Definition _scan_single
    (ticker : string) (close : Series) (atm_iv : option float64)
  : result (option Row) :=
  hv_all <- _hv_series close 20 ;;
  let hv := dropna hv_all in
  if (len hv <? 20)%Z then Ok None
  else
    current_iv <- match atm_iv with
                  | Some iv => Ok iv
                  | None => iloc_last hv
                  end ;;
    rv_20d <- iloc_last hv ;;
    let premium := fsub current_iv rv_20d in
    fast_all <- _hv_series close 10 ;;
    let hv_fast := dropna fast_all in
    slow_all <- _hv_series close 30 ;;
    let hv_slow := dropna slow_all in
    let min_len := Z.min (len hv_fast) (len hv_slow) in
    let premium_pct :=
      if (min_len <? 20)%Z then Num 50
      else
        let hist_premium :=
          array_sub (iloc_from (- min_len) hv_fast)
                    (iloc_from (- min_len) hv_slow) in
        fmul (fdiv (Num (INR (count_le hist_premium premium)))
                   (Num (INR (List.length hist_premium))))
             (Num 100) in
    let iv_percentile :=
      fmul (fdiv (Num (INR (count_le hv current_iv)))
                 (Num (INR (List.length hv))))
           (Num 100) in
    let signal :=
      if fge iv_percentile (Num 75) && flt (Num 0) premium then "SELL"%string
      else if fle iv_percentile (Num 25) then "WAIT"%string
      else "NEUTRAL"%string in
    Ok (Some {| ticker := ticker;
                current_iv := py_round current_iv 4;
                realized_vol_20d := py_round rv_20d 4;
                premium := py_round premium 4;
                premium_pct := py_round premium_pct 1;
                iv_percentile := py_round iv_percentile 1;
                signal := signal |}).

End PremiumScanner.

(** * The callers: vol_toolkit.cli *)

(** The outlook line the [forecast] command prints for a result of
    [forecast_garch]. *)
Definition forecast_outlook (result : GarchForecast) : string :=
  let newline := String (ascii_of_nat 10) EmptyString in
  if flt (fmul (current_vol result) (Num (11 / 10))) (forecast_vol result)
  then newline ++ "  Outlook: Vol expected to INCREASE - consider waiting."
  else if flt (forecast_vol result) (fmul (current_vol result) (Num (9 / 10)))
  then newline ++ "  Outlook: Vol expected to DECREASE - good window to sell."
  else newline ++ "  Outlook: Vol expected to remain STABLE.".

(** * vol_toolkit.correlation *)

Module Correlation.

(** One dictionary of the list [detect_correlation_regime] returns. *)
Record Regime : Type := {
  pair : string;
  current_corr : float64;
  avg_corr : float64;
  regime : string
}.

(** What [detect_correlation_regime] holds after the download of at least
    two tickers with data: the column labels of the two correlation
    matrices, each label once, the number of rows of [returns], and the
    entries [current_corr.loc[t1, t2]] and [avg_corr.loc[t1, t2]] of the
    30-day and of the full-period matrix. *)
Record ReturnData : Type := {
  columns : list string;
  n_returns : Z;
  current_loc : string -> string -> float64;
  avg_loc : string -> string -> float64
}.

(** [enumerate(l)], counting from [k]. *)
Definition enumerate_from {A : Type} (k : nat) (l : list A)
  : list (nat * A) :=
  combine (seq k (List.length l)) l.

(** [key in seen], for the set of pairs [seen]. *)
Definition in_seen
    (key : string * string) (seen : list (string * string)) : bool :=
  existsb (fun k => String.eqb (fst key) (fst k)
                    && String.eqb (snd key) (snd k)) seen.

(** [t in current_corr.columns]. *)
Definition in_columns (data : ReturnData) (t : string) : bool :=
  existsb (String.eqb t) (columns data).

(** The dictionary appended for the pair [(t1, t2)]. *)
Definition regime_entry
    (data : ReturnData) (threshold : float64) (t1 t2 : string) : Regime :=
  let curr := current_loc data t1 t2 in
  let avg := avg_loc data t1 t2 in
  {| pair := t1 ++ "/" ++ t2;
     current_corr := py_round curr 4;
     avg_corr := py_round avg 4;
     regime := if fge curr threshold then "HIGH" else "NORMAL" |}.

(** The body of the inner loop, on the state [(seen, results)]. *)
Definition pair_step
    (data : ReturnData) (threshold : float64) (i : nat) (t1 : string)
    (st : list (string * string) * list Regime) (jt : nat * string)
  : list (string * string) * list Regime :=
  let '(j, t2) := jt in
  let '(seen, results) := st in
  if (j <=? i)%nat then st
  else if in_seen (t1, t2) seen then st
  else
    let seen := (t1, t2) :: seen in
    if negb (in_columns data t1) || negb (in_columns data t2)
    then (seen, results)
    else (seen, results ++ [regime_entry data threshold t1 t2]).

(** The two nested loops over [enumerate(tickers)]. *)
Definition regime_loop
    (data : ReturnData) (threshold : float64) (tickers : list string)
  : list (string * string) * list Regime :=
  fold_left
    (fun st it =>
       fold_left (pair_step data threshold (fst it) (snd it))
                 (enumerate_from 0 tickers) st)
    (enumerate_from 0 tickers) ([], []).

(** [detect_correlation_regime] after its download. *)
Definition detect_correlation_regime
    (tickers : list string) (threshold : float64) (data : ReturnData)
  : result (list Regime) :=
  if (Z.of_nat (List.length tickers) <? 2)%Z
  then Raise (ValueError "Need at least 2 tickers")
  else if (n_returns data <? 120)%Z
  then Raise (ValueError "Need at least 120 data points for regime detection")
  else Ok (snd (regime_loop data threshold tickers)).

(** The pairs of a list with the first entry before the second, in the
    order of the two loops. *)
Fixpoint ordered_pairs (l : list string) : list (string * string) :=
  match l with
  | [] => []
  | t :: rest => map (fun b => (t, b)) rest ++ ordered_pairs rest
  end.

(** The keys of a list that are not in [seen] and occur for the first
    time. *)
Fixpoint first_seen
    (seen keys : list (string * string)) : list (string * string) :=
  match keys with
  | [] => []
  | k :: ks =>
      if in_seen k seen then first_seen seen ks
      else k :: first_seen (k :: seen) ks
  end.

(** Both tickers of a key are columns. *)
Definition both_in_columns
    (data : ReturnData) (key : string * string) : bool :=
  in_columns data (fst key) && in_columns data (snd key).

(** One pass of the loop body for a key, without the positions. *)
Definition key_step
    (data : ReturnData) (threshold : float64)
    (st : list (string * string) * list Regime) (key : string * string)
  : list (string * string) * list Regime :=
  let '(seen, results) := st in
  if in_seen key seen then st
  else if both_in_columns data key
  then (key :: seen,
        results ++ [regime_entry data threshold (fst key) (snd key)])
  else (key :: seen, results).

End Correlation.

(** Correlation matrices of three tickers, for concrete runs. *)
Definition sample_correlations : Correlation.ReturnData :=
  {| Correlation.columns := ["SPY"; "QQQ"; "IWM"]%string;
     Correlation.n_returns := 250;
     Correlation.current_loc := fun _ _ => Num (9 / 10);
     Correlation.avg_loc := fun _ _ => Num (1 / 2) |}.

(** * Facts about the number model *)

(** Settles a length guard [(a <? b)%Z] of the goal from the hypotheses. *)
Ltac decide_guard :=
  repeat match goal with
    | |- context [(?a <? ?b)%Z] =>
        first
          [ replace (a <? b)%Z with false by (symmetry; apply Z.ltb_ge; lia)
          | replace (a <? b)%Z with true by (symmetry; apply Z.ltb_lt; lia) ]
    end.

Section FloatFacts.

Lemma Rltb_true (x y : R) : x < y -> Rltb x y = true.
Proof. intros H. unfold Rltb. destruct (Rlt_dec x y); [reflexivity | contradiction]. Qed.

Lemma Rltb_false (x y : R) : y <= x -> Rltb x y = false.
Proof. intros H. unfold Rltb. destruct (Rlt_dec x y); [lra | reflexivity]. Qed.

Lemma Reqb_true (x y : R) : x = y -> Reqb x y = true.
Proof. intros H. unfold Reqb. destruct (Req_dec_T x y); [reflexivity | contradiction]. Qed.

Lemma Reqb_false (x y : R) : x <> y -> Reqb x y = false.
Proof. intros H. unfold Reqb. destruct (Req_dec_T x y); [contradiction | reflexivity]. Qed.

Lemma fdiv_num (a b : R) : b <> 0 -> fdiv (Num a) (Num b) = Num (a / b).
Proof. intros H. simpl. now rewrite Reqb_false. Qed.

Lemma np_log_pos (a : R) : 0 < a -> np_log (Num a) = Num (ln a).
Proof. intros H. simpl. now rewrite Rltb_true. Qed.

Lemma np_sqrt_nonneg (a : R) : 0 <= a -> np_sqrt (Num a) = Num (sqrt a).
Proof. intros H. simpl. now rewrite Rltb_false. Qed.

Lemma math_sqrt_nonneg (a : R) : 0 <= a -> math_sqrt (Num a) = Ok (Num (sqrt a)).
Proof. intros H. simpl. now rewrite Rltb_false. Qed.

Lemma math_log_pos (a : R) : 0 < a -> math_log (Num a) = Ok (Num (ln a)).
Proof. intros H. simpl. now rewrite Rltb_true. Qed.

Lemma fpow_num_2 (a : R) : fpow (Num a) 2 = Num (a * a).
Proof. simpl. f_equal. unfold powerRZ. simpl. ring. Qed.

Lemma fpow_num_nonneg (a : R) (n : Z) :
  (0 <= n)%Z -> fpow (Num a) n = Num (a ^ Z.to_nat n).
Proof.
  intros H. unfold fpow.
  replace (n <? 0)%Z with false by (symmetry; apply Z.ltb_ge; exact H).
  simpl. f_equal. destruct n as [|p|p]; simpl; try reflexivity. lia.
Qed.

Lemma ln_2_pos : 0 < ln 2.
Proof. rewrite <- ln_1. apply ln_increasing; lra. Qed.

Lemma sqrt_252_pos : 0 < sqrt 252.
Proof. apply sqrt_lt_R0. lra. Qed.

Lemma parkinson_factor :
  fdiv (Num 1) (fmul (Num 4) (Num (ln 2))) = Num (1 / (4 * ln 2)).
Proof. simpl fmul. apply fdiv_num. pose proof ln_2_pos. lra. Qed.

End FloatFacts.

(** * Facts about series *)

Section SeriesFacts.

Lemma finite_is_num (x : float64) : finite x -> exists r, x = Num r.
Proof. destruct x; simpl; intros H; try contradiction. now exists r. Qed.

Lemma finite_series (s : Series) :
  Forall finite s -> exists xs, s = map Num xs.
Proof.
  induction 1 as [|x s Hx _ [xs ->]].
  - now exists [].
  - destruct (finite_is_num x Hx) as [r ->]. now exists (r :: xs).
Qed.

Lemma positive_series (s : Series) :
  Forall positive s -> exists xs, s = map Num xs /\ Forall (fun r => 0 < r) xs.
Proof.
  induction 1 as [|x s Hx _ [xs [-> Hxs]]].
  - exists []. split; [reflexivity | constructor].
  - destruct x; simpl in Hx; try contradiction.
    exists (r :: xs). split; [reflexivity | now constructor].
Qed.

Lemma dropna_nums (xs : list R) : dropna (map Num xs) = map Num xs.
Proof. induction xs as [|x xs IH]; simpl; [reflexivity | now f_equal]. Qed.

Lemma sum_nums (xs : list R) : Series.sum (map Num xs) = Num (Rsum xs).
Proof.
  induction xs as [|x xs IH]; [reflexivity |].
  change (Series.sum (map Num (x :: xs)))
    with (fadd (Num x) (Series.sum (map Num xs))).
  now rewrite IH.
Qed.

Lemma len_nonneg (s : Series) : (0 <= len s)%Z.
Proof. unfold len. lia. Qed.

Lemma iloc_from_window (w : Z) (s : Series) :
  (0 < w <= len s)%Z ->
  iloc_from (- w) s = lastn (Z.to_nat w) s.
Proof.
  intros H. unfold iloc_from, lastn, len in *.
  replace (- w <? 0)%Z with true by (symmetry; apply Z.ltb_lt; lia).
  f_equal. lia.
Qed.

Lemma iloc_from_zero (s : Series) : iloc_from (- 0) s = s.
Proof.
  unfold iloc_from. simpl. pose proof (len_nonneg s).
  now replace (Z.min 0 (len s)) with 0%Z by lia.
Qed.

Lemma lastn_length {A : Type} (w : nat) (l : list A) :
  (w <= List.length l)%nat -> List.length (lastn w l) = w.
Proof. intros H. unfold lastn. rewrite length_skipn. lia. Qed.

Lemma lastn_map {A B : Type} (f : A -> B) (w : nat) (l : list A) :
  lastn w (map f l) = map f (lastn w l).
Proof. unfold lastn. now rewrite length_map, skipn_map. Qed.

Lemma Forall_skipn {A : Type} (P : A -> Prop) (k : nat) (l : list A) :
  Forall P l -> Forall P (skipn k l).
Proof.
  revert l. induction k as [|k IH]; intros l H; [exact H |].
  destruct l as [|x l]; [constructor |]. simpl. apply IH. now inversion H.
Qed.

Lemma Forall_removelast {A : Type} (P : A -> Prop) (l : list A) :
  Forall P l -> Forall P (removelast l).
Proof.
  induction 1 as [|x l Hx Hl IH]; [constructor |].
  simpl. destruct l; [constructor | now constructor].
Qed.

Lemma Forall_shift1 (P : float64 -> Prop) (s : Series) :
  P NaN -> Forall P s -> Forall P (shift1 s).
Proof.
  intros Hn H. destruct s as [|x s]; [constructor |].
  unfold shift1. constructor; [exact Hn | now apply Forall_removelast].
Qed.

Lemma Forall_binop (P Q : float64 -> Prop) f (a b : Series) :
  P NaN -> (forall x y, P x -> P y -> Q (f x y)) ->
  Forall P a -> Forall P b -> Forall Q (binop f a b).
Proof.
  intros Hn Hf Ha. revert b.
  induction Ha as [|x a Hx Ha IH]; intros b Hb.
  - simpl. apply Forall_map. eapply Forall_impl; [| exact Hb].
    intros y Hy. now apply Hf.
  - destruct b as [|y b].
    + change (binop f (x :: a) []) with (map (fun x' => f x' NaN) (x :: a)).
      apply Forall_map. eapply Forall_impl; [| exact (Forall_cons x Hx Ha)].
      intros z Hz. now apply Hf.
    + simpl. inversion Hb; subst. constructor; [now apply Hf | now apply IH].
Qed.

Lemma binop_map2 f (xs ys : list R) :
  List.length xs = List.length ys ->
  binop f (map Num xs) (map Num ys)
  = map (fun '(x, y) => f (Num x) (Num y)) (combine xs ys).
Proof.
  revert ys. induction xs as [|x xs IH]; intros [|y ys] H; simpl in *;
    try discriminate; [reflexivity |].
  f_equal. apply IH. now injection H.
Qed.

End SeriesFacts.

(** * The Parkinson estimator never takes the root of a negative number *)

Section NotNegative.

Lemma fpow_2_not_negative (x : float64) : not_negative (fpow x 2).
Proof.
  destruct x; simpl; trivial.
  unfold powerRZ. simpl. nra.
Qed.

Lemma fadd_not_negative (x y : float64) :
  not_negative x -> not_negative y -> not_negative (fadd x y).
Proof. destruct x, y; simpl; intros; trivial; lra. Qed.

Lemma sum_not_negative (s : Series) :
  Forall not_negative s -> not_negative (Series.sum s).
Proof.
  induction 1 as [|x s Hx _ IH]; simpl; [lra |].
  now apply fadd_not_negative.
Qed.

Lemma Forall_dropna (P : float64 -> Prop) (s : Series) :
  Forall P s -> Forall P (dropna s).
Proof.
  intros H. unfold dropna. apply Forall_forall. intros x Hx.
  apply filter_In in Hx. destruct Hx as [Hx _].
  revert x Hx. now apply Forall_forall.
Qed.

Lemma fdiv_not_negative (x : float64) (n : R) :
  0 < n -> not_negative x -> not_negative (fdiv x (Num n)).
Proof.
  intros Hn Hx. destruct x; simpl in *; trivial; try contradiction.
  - rewrite Reqb_false by lra. simpl. apply Rle_mult_inv_pos; assumption.
  - rewrite Rltb_false by lra. exact I.
Qed.

Lemma fmul_not_negative (x : float64) (c : R) :
  0 < c -> not_negative x ->
  not_negative (fmul (Num c) x) /\ not_negative (fmul x (Num c)).
Proof.
  intros Hc Hx. destruct x; simpl in *; try contradiction;
    try (split; trivial; fail).
  - split; nra.
  - rewrite Reqb_false by lra. rewrite Rltb_false by lra. split; exact I.
Qed.

Lemma mean_not_negative (s : Series) :
  Forall not_negative s -> not_negative (mean s).
Proof.
  intros H. unfold mean. pose proof (Forall_dropna _ _ H) as Hd.
  destruct (dropna s) as [|x xs] eqn:E; [exact I |].
  apply fdiv_not_negative; [apply lt_0_INR; simpl; lia |].
  now apply sum_not_negative.
Qed.

Lemma math_sqrt_not_negative (x : float64) :
  not_negative x -> exists v, math_sqrt x = Ok v.
Proof.
  destruct x; simpl; intros H; try contradiction; eauto.
  rewrite Rltb_false by lra. eauto.
Qed.

Lemma pow_2_not_negative (s : Series) : Forall not_negative (pow s 2).
Proof.
  unfold pow. apply Forall_map. apply Forall_forall. intros x _.
  apply fpow_2_not_negative.
Qed.

(** With enough points in both series the estimator returns a value,
    whatever the series hold. *)
Lemma parkinson_returns (high low : Series) (window : Z) :
  (window <= len high)%Z -> (window <= len low)%Z ->
  exists v, calculate_parkinson_vol high low window = Ok v.
Proof.
  intros Hh Hl. unfold calculate_parkinson_vol.
  decide_guard.
  simpl orb. cbv iota. rewrite parkinson_factor.
  apply math_sqrt_not_negative.
  apply fmul_not_negative; [lra |].
  apply fmul_not_negative.
  - pose proof ln_2_pos. apply Rdiv_lt_0_compat; lra.
  - apply mean_not_negative, pow_2_not_negative.
Qed.

Lemma parkinson_raises (high low : Series) (window : Z) :
  (len high < window)%Z \/ (len low < window)%Z ->
  calculate_parkinson_vol high low window
  = Raise (ValueError ("Need at least " ++ str window ++ " data points")%string).
Proof.
  intros H. unfold calculate_parkinson_vol.
  replace ((len high <? window)%Z || (len low <? window)%Z) with true;
    [reflexivity |].
  symmetry. apply orb_true_iff.
  destruct H; [left | right]; now apply Z.ltb_lt.
Qed.

End NotNegative.

(** * The Parkinson estimator on paired positive prices *)

Section ParkinsonValue.

Lemma log_div_positive (hs ls : list R) :
  Forall (fun r => 0 < r) hs -> Forall (fun r => 0 < r) ls ->
  List.length hs = List.length ls ->
  Series.log (div (map Num hs) (map Num ls))
  = map Num (map (fun '(h, l) => ln (h / l)) (combine hs ls)).
Proof.
  intros Hh Hl Hlen. unfold Series.log, div.
  rewrite binop_map2 by exact Hlen. rewrite !map_map.
  apply map_ext_in. intros [h l] Hin.
  assert (0 < h) as Hhp.
  { apply in_combine_l in Hin. revert h Hin. now apply Forall_forall. }
  assert (0 < l) as Hlp.
  { apply in_combine_r in Hin. revert l Hin. now apply Forall_forall. }
  rewrite fdiv_num by lra. apply np_log_pos.
  now apply Rdiv_lt_0_compat.
Qed.

Lemma pow_2_nums (rs : list R) :
  pow (map Num rs) 2 = map Num (map Rsqr rs).
Proof.
  unfold pow. rewrite !map_map. apply map_ext. intros r.
  now rewrite fpow_num_2.
Qed.

Lemma mean_nums (r : R) (rs : list R) :
  mean (map Num (r :: rs))
  = Num (Rsum (r :: rs) / INR (List.length (r :: rs))).
Proof.
  unfold mean. rewrite dropna_nums.
  change (map Num (r :: rs)) with (Num r :: map Num rs) at 1.
  cbv iota. change (Num r :: map Num rs) with (map Num (r :: rs)).
  rewrite sum_nums, length_map. apply fdiv_num.
  apply not_0_INR. simpl. lia.
Qed.

Lemma Rsum_squares_nonneg (rs : list R) : 0 <= Rsum (map Rsqr rs).
Proof.
  induction rs as [|r rs IH]; simpl; [lra |].
  pose proof (Rle_0_sqr r). lra.
Qed.

(** The estimate over a non-empty window of log ranges. *)
Lemma parkinson_of_window (r : R) (rs : list R) :
  math_sqrt
    (fmul (fmul (Num (1 / (4 * ln 2))) (mean (pow (map Num (r :: rs)) 2)))
          TRADING_DAYS_PER_YEAR)
  = Ok (Num (sqrt (1 / (4 * ln 2)
                   * (Rsum (map Rsqr (r :: rs)) / INR (List.length (r :: rs)))
                   * 252))).
Proof.
  rewrite pow_2_nums.
  change (map Rsqr (r :: rs)) with (Rsqr r :: map Rsqr rs).
  rewrite mean_nums. unfold TRADING_DAYS_PER_YEAR. simpl fmul.
  rewrite length_map. apply math_sqrt_nonneg.
  pose proof ln_2_pos as H2.
  pose proof (Rsum_squares_nonneg (r :: rs)) as Hs.
  assert (0 < INR (List.length (r :: rs))) as Hn
    by (apply lt_0_INR; simpl; lia).
  assert (0 < 1 / (4 * ln 2)) as Hf by (apply Rdiv_lt_0_compat; lra).
  assert (0 <= Rsum (map Rsqr (r :: rs)) / INR (List.length (r :: rs))) as Hm
    by (apply Rle_mult_inv_pos; assumption).
  change (Rsqr r :: map Rsqr rs) with (map Rsqr (r :: rs)).
  change (S (List.length rs)) with (List.length (r :: rs)).
  nra.
Qed.

Lemma parkinson_value (hs ls : list R) (w : Z) :
  Forall (fun r => 0 < r) hs -> Forall (fun r => 0 < r) ls ->
  List.length hs = List.length ls ->
  (1 <= w <= len (map Num hs))%Z ->
  calculate_parkinson_vol (map Num hs) (map Num ls) w
  = Ok (spec_parkinson_vol hs ls (Z.to_nat w)).
Proof.
  intros Hh Hl Hlen Hw. unfold calculate_parkinson_vol.
  assert (len (map Num ls) = len (map Num hs)) as Hl2
    by (unfold len; now rewrite !length_map, Hlen).
  decide_guard.
  simpl orb. cbv iota. rewrite parkinson_factor.
  rewrite log_div_positive by assumption.
  assert (List.length (combine hs ls) = List.length hs) as Hc
    by (rewrite length_combine; lia).
  unfold len in Hw. rewrite length_map in Hw.
  rewrite iloc_from_window
    by (unfold len; rewrite !length_map, Hc; lia).
  rewrite !lastn_map. unfold spec_parkinson_vol.
  assert (List.length (lastn (Z.to_nat w) (combine hs ls)) = Z.to_nat w) as Hn
    by (apply lastn_length; lia).
  destruct (lastn (Z.to_nat w) (combine hs ls)) as [|[h l] obs] eqn:E;
    [simpl in Hn; lia |].
  change (map (fun '(h0, l0) => ln (h0 / l0)) ((h, l) :: obs))
    with (ln (h / l) :: map (fun '(h0, l0) => ln (h0 / l0)) obs).
  rewrite parkinson_of_window. do 2 f_equal.
  change (ln (h / l) :: map (fun '(h0, l0) => ln (h0 / l0)) obs)
    with (map (fun '(h0, l0) => ln (h0 / l0)) ((h, l) :: obs)).
  rewrite map_map, length_map. do 3 f_equal. unfold Rdiv. do 2 f_equal.
  apply map_ext. now intros [h0 l0].
Qed.

End ParkinsonValue.

(** * Strings in error messages *)

Section Messages.

Lemma prefix_app (s t : string) : prefix s (s ++ t) = true.
Proof.
  induction s as [|c s IH]; simpl; [now destruct t |].
  destruct (ascii_dec c c) as [_ | Hc]; [exact IH | now elim Hc].
Qed.

Lemma contains_prefix (s u : string) :
  prefix s u = true -> contains s u = true.
Proof. destruct u; simpl; intros ->; reflexivity. Qed.

Lemma contains_here (s t : string) : contains s (s ++ t) = true.
Proof. apply contains_prefix, prefix_app. Qed.

Lemma contains_refl (s : string) : contains s s = true.
Proof.
  replace s with (s ++ "")%string at 2; [apply contains_here |].
  induction s as [|c s IH]; simpl; [reflexivity | now rewrite IH].
Qed.

Lemma contains_after (s a t : string) :
  contains s t = true -> contains s (a ++ t) = true.
Proof.
  intros H. induction a as [|c a IH]; simpl; [exact H |].
  rewrite IH. apply orb_true_r.
Qed.

Lemma realized_vol_raises (prices : Series) (window : Z) (annualize : bool) :
  (len (log_returns prices) < window)%Z ->
  calculate_realized_vol prices window annualize
  = Raise (ValueError ("Need at least " ++ str window ++ " returns, got "
                         ++ str (len (log_returns prices)))%string).
Proof.
  intros H. unfold calculate_realized_vol.
  now decide_guard.
Qed.

Lemma len_scale (s : Series) (c : float64) : len (scale s c) = len s.
Proof. unfold len, scale. now rewrite length_map. Qed.

Lemma forecast_garch_raises fit (returns : Series) (horizon : Z) :
  (len (dropna returns) < 100)%Z ->
  forecast_garch fit returns horizon
  = Raise (ValueError "Need at least 100 returns for GARCH estimation").
Proof.
  intros H. unfold forecast_garch. rewrite len_scale.
  now decide_guard.
Qed.

End Messages.

(** * Paired trailing windows *)

Section Windows.

Lemma skipn_combine {A B : Type} (k : nat) (a : list A) (b : list B) :
  skipn k (combine a b) = combine (skipn k a) (skipn k b).
Proof.
  revert a b. induction k as [|k IH]; intros a b; [reflexivity |].
  destruct a as [|x a]; [reflexivity |].
  destruct b as [|y b]; simpl; [now destruct (skipn k a) | apply IH].
Qed.

Lemma lastn_combine {A B : Type} (w : nat) (a : list A) (b : list B) :
  List.length a = List.length b ->
  lastn w (combine a b) = combine (lastn w a) (lastn w b).
Proof.
  intros H. unfold lastn. rewrite skipn_combine, length_combine, <- H.
  now rewrite Nat.min_id.
Qed.

Lemma in_combine_diag {A : Type} (l : list A) (x y : A) :
  In (x, y) (combine l l) -> x = y.
Proof.
  induction l as [|z l IH]; simpl; [contradiction |].
  intros [H | H]; [congruence | now apply IH].
Qed.

Lemma Rsum_zero (rs : list R) : Forall (fun r => r = 0) rs -> Rsum rs = 0.
Proof. induction 1 as [|r rs Hr _ IH]; simpl; [reflexivity | lra]. Qed.

Lemma Forall_lastn {A : Type} (P : A -> Prop) (w : nat) (l : list A) :
  Forall P l -> Forall P (lastn w l).
Proof. apply Forall_skipn. Qed.

(** A window in which every high equals its low has estimate zero. *)
Lemma spec_parkinson_flat (hs ls : list R) (w : nat) :
  Forall (fun r => 0 < r) hs ->
  List.length hs = List.length ls ->
  (1 <= w <= List.length hs)%nat ->
  lastn w hs = lastn w ls ->
  spec_parkinson_vol hs ls w = Num 0.
Proof.
  intros Hpos Hlen Hw Heq. unfold spec_parkinson_vol.
  rewrite lastn_combine by exact Hlen. rewrite <- Heq.
  assert (List.length (combine (lastn w hs) (lastn w hs)) = w) as Hn
    by (rewrite length_combine, Nat.min_id; apply lastn_length; lia).
  pose proof (Forall_lastn _ w _ Hpos) as Hp.
  destruct (combine (lastn w hs) (lastn w hs)) as [|p obs] eqn:E;
    [simpl in Hn; lia |].
  rewrite <- E. f_equal.
  rewrite Rsum_zero.
  - unfold Rdiv. rewrite !Rmult_0_l, Rmult_0_r, Rmult_0_l. apply sqrt_0.
  - apply Forall_map, Forall_forall. intros [h l] Hin.
    pose proof (in_combine_diag _ _ _ Hin) as <-.
    apply in_combine_l in Hin.
    assert (0 < h) as Hh by (revert h Hin; now apply Forall_forall).
    unfold Rdiv. rewrite Rinv_r by lra. rewrite ln_1. unfold Rsqr. ring.
Qed.

End Windows.

(** * Error handling *)

Section ErrorClaims.

(** C3.  A return series with fewer than 100 non-NaN values makes
    [forecast_garch] raise the insufficient-data error (a [ValueError]
    starting "Need at least") whose message mentions "100"; the fit is not
    reached and no result is returned. *)
Theorem forecast_garch_insufficient_data
    (fit : Series -> result ARCHModelResult) (returns : Series) (horizon : Z) :
  (len (dropna returns) < 100)%Z ->
  exists msg,
    forecast_garch fit returns horizon = Raise (ValueError msg)
    /\ insufficient_data (ValueError msg) = true
    /\ contains "100" msg = true.
Proof.
  intros H. eexists. split; [now apply forecast_garch_raises |].
  split; reflexivity.
Qed.

Lemma forecast_garch_insufficient_data_witness :
  (len (dropna [Num 1; NaN; Num 2]) < 100)%Z
  /\ exists msg,
       forecast_garch (constant_fit 1 (1 / 16) (1 / 16)) [Num 1; NaN; Num 2] 5
       = Raise (ValueError msg)
       /\ insufficient_data (ValueError msg) = true
       /\ contains "100" msg = true.
Proof.
  split; [reflexivity |].
  apply (forecast_garch_insufficient_data
           (constant_fit 1 (1 / 16) (1 / 16)) [Num 1; NaN; Num 2] 5).
  reflexivity.
Defined.

(** C8, as the code has it.  Each of the three length guards raises a
    [ValueError] starting "Need at least" that shows the required count;
    the one of [calculate_realized_vol] also shows the count of returns
    available. *)
Theorem insufficient_data_messages :
  (forall prices window annualize,
      (len (log_returns prices) < window)%Z ->
      exists e,
        calculate_realized_vol prices window annualize = Raise e
        /\ insufficient_data e = true
        /\ carries window e = true
        /\ carries (len (log_returns prices)) e = true)
  /\ (forall high low window,
         (len high < window)%Z \/ (len low < window)%Z ->
         exists e,
           calculate_parkinson_vol high low window = Raise e
           /\ insufficient_data e = true
           /\ carries window e = true)
  /\ (forall fit returns horizon,
         (len (dropna returns) < 100)%Z ->
         exists e,
           forecast_garch fit returns horizon = Raise e
           /\ insufficient_data e = true
           /\ carries 100 e = true).
Proof.
  split; [| split].
  - intros prices window annualize H. eexists.
    split; [now apply realized_vol_raises |].
    split; [apply prefix_app |]. split.
    + cbn [carries]. apply (contains_after _ "Need at least "), contains_here.
    + cbn [carries]. apply (contains_after _ "Need at least ").
      apply contains_after.
      apply (contains_after _ " returns, got "), contains_refl.
  - intros high low window H. eexists.
    split; [now apply parkinson_raises |].
    split; [apply prefix_app |].
    cbn [carries]. apply (contains_after _ "Need at least "), contains_here.
  - intros fit returns horizon H. eexists.
    split; [now apply forecast_garch_raises |].
    split; reflexivity.
Qed.

(** C8 fails as stated: with one point in each series and a window of 20,
    the error of [calculate_parkinson_vol] shows the required 20 and not the
    1 point available; the error of [forecast_garch] on 5 returns shows the
    required 100 and not the 5 available. *)
Lemma insufficient_data_lacks_actual_count :
  (exists e,
      calculate_parkinson_vol [Num 1] [Num 1] 20 = Raise e
      /\ insufficient_data e = true
      /\ carries 20 e = true
      /\ carries (len [Num 1]) e = false)
  /\ (exists e,
         forecast_garch (constant_fit 1 (1 / 16) (1 / 16))
                        [Num 1; Num 1; Num 1; Num 1; Num 1] 5 = Raise e
         /\ insufficient_data e = true
         /\ carries 100 e = true
         /\ carries (len (dropna [Num 1; Num 1; Num 1; Num 1; Num 1])) e
            = false).
Proof.
  split; eexists; (split; [reflexivity |]); repeat split; reflexivity.
Qed.

(** C9, as the code has it.  [calculate_parkinson_vol] fails exactly when
    one of the two series has fewer than [window] points, with the
    insufficient-data [ValueError]; when both have at least [window] points
    it returns a value, whether or not their lengths agree. *)
Theorem parkinson_fails_only_on_short_series
    (high low : Series) (window : Z) :
  ((len high < window)%Z \/ (len low < window)%Z ->
   calculate_parkinson_vol high low window
   = Raise (ValueError ("Need at least " ++ str window ++ " data points")%string))
  /\ ((window <= len high)%Z -> (window <= len low)%Z ->
      exists v, calculate_parkinson_vol high low window = Ok v).
Proof.
  split; [apply parkinson_raises | apply parkinson_returns].
Qed.

(** C9 fails as stated: a high series of 3 points and a low series of 2
    points, with a window of 2, give a value and no error. *)
Lemma parkinson_accepts_mismatched_lengths :
  List.length [Num 2; Num 2; Num 2] <> List.length [Num 1; Num 1]
  /\ exists v,
       calculate_parkinson_vol [Num 2; Num 2; Num 2] [Num 1; Num 1] 2 = Ok v.
Proof.
  split; [discriminate |].
  apply parkinson_returns; unfold len; simpl; lia.
Qed.

End ErrorClaims.

(** * The Parkinson estimator *)

Section ParkinsonClaims.

(** With a window of 0 the slice [iloc[-0:]] is the whole series: on
    [high = [2.0]], [low = [1.0]] the estimate is taken over the one
    observation there is. *)
Lemma parkinson_window_zero_example :
  calculate_parkinson_vol [Num 2] [Num 1] 0
  = Ok (Num (sqrt (1 / (4 * ln 2) * (Rsum [Rsqr (ln (2 / 1))] / INR 1) * 252)))
  /\ 0 < sqrt (1 / (4 * ln 2) * (Rsum [Rsqr (ln (2 / 1))] / INR 1) * 252).
Proof.
  split.
  - unfold calculate_parkinson_vol.
    change ((len [Num 2] <? 0)%Z || (len [Num 1] <? 0)%Z) with false.
    cbv iota. rewrite iloc_from_zero, parkinson_factor.
    change (Series.log (div [Num 2] [Num 1]))
      with [np_log (fdiv (Num 2) (Num 1))].
    rewrite fdiv_num by lra.
    rewrite np_log_pos by lra.
    exact (parkinson_of_window (ln (2 / 1)) []).
  - apply sqrt_lt_R0. pose proof ln_2_pos as H2.
    assert (0 < 1 / (4 * ln 2)) as Hf by (apply Rdiv_lt_0_compat; lra).
    replace (2 / 1) with 2 by lra.
    assert (0 < Rsqr (ln 2)) as Hs by (apply Rlt_0_sqr; lra).
    simpl. nra.
Qed.

(** C6, as the code has it.  For a window [w >= 1] and high and low series
    of positive prices, of one length that is at least [w],
    [calculate_parkinson_vol] returns the square root of [1 / (4 ln 2)]
    times the mean of the squared [log(high/low)] over the last [w]
    observations, times 252. *)
Theorem parkinson_formula (hs ls : list R) (w : Z) :
  Forall (fun r => 0 < r) hs -> Forall (fun r => 0 < r) ls ->
  List.length hs = List.length ls ->
  (1 <= w <= Z.of_nat (List.length hs))%Z ->
  calculate_parkinson_vol (map Num hs) (map Num ls) w
  = Ok (Num (sqrt (1 / (4 * ln 2)
                   * (Rsum (map (fun '(h, l) => Rsqr (ln (h / l)))
                                (lastn (Z.to_nat w) (combine hs ls)))
                      / INR (Z.to_nat w))
                   * 252)))
  /\ calculate_parkinson_vol (map Num hs) (map Num ls) w
     = Ok (spec_parkinson_vol hs ls (Z.to_nat w)).
Proof.
  intros Hh Hl Hlen Hw.
  assert (calculate_parkinson_vol (map Num hs) (map Num ls) w
          = Ok (spec_parkinson_vol hs ls (Z.to_nat w))) as E
    by (apply parkinson_value; try assumption; unfold len;
        now rewrite length_map).
  split; [| exact E]. rewrite E. unfold spec_parkinson_vol.
  assert (List.length (lastn (Z.to_nat w) (combine hs ls)) = Z.to_nat w) as Hn
    by (apply lastn_length; rewrite length_combine; lia).
  destruct (lastn (Z.to_nat w) (combine hs ls)) as [|p obs] eqn:Eo;
    [simpl in Hn; lia |].
  now rewrite Hn.
Qed.

Lemma parkinson_formula_witness :
  calculate_parkinson_vol (map Num [2; 4; 6]) (map Num [1; 2; 5]) 2
  = Ok (Num (sqrt (1 / (4 * ln 2)
                   * (Rsum (map (fun '(h, l) => Rsqr (ln (h / l)))
                                (lastn (Z.to_nat 2)
                                       (combine [2; 4; 6] [1; 2; 5])))
                      / INR (Z.to_nat 2))
                   * 252)))
  /\ calculate_parkinson_vol (map Num [2; 4; 6]) (map Num [1; 2; 5]) 2
     = Ok (spec_parkinson_vol [2; 4; 6] [1; 2; 5] (Z.to_nat 2)).
Proof.
  apply (parkinson_formula [2; 4; 6] [1; 2; 5] 2).
  - repeat constructor; lra.
  - repeat constructor; lra.
  - reflexivity.
  - simpl. lia.
Defined.

(** Pairing by index leaves the last high of [high = [1, 2, 2]],
    [low = [1, 1]] without a low: the quotient there is [NaN], the mean
    skips it, and the window of 2 holds one observation only. *)
Lemma parkinson_mismatched_example :
  calculate_parkinson_vol [Num 1; Num 2; Num 2] [Num 1; Num 1] 2
  = Ok (Num (sqrt (1 / (4 * ln 2) * (Rsum [Rsqr (ln (2 / 1))] / INR 1) * 252))).
Proof.
  unfold calculate_parkinson_vol.
  change ((len [Num 1; Num 2; Num 2] <? 2)%Z || (len [Num 1; Num 1] <? 2)%Z)
    with false.
  cbv iota. rewrite parkinson_factor.
  change (iloc_from (- (2))
            (Series.log (div [Num 1; Num 2; Num 2] [Num 1; Num 1])))
    with [np_log (fdiv (Num 2) (Num 1)); NaN].
  rewrite fdiv_num by lra. rewrite np_log_pos by lra.
  change (mean (pow [Num (ln (2 / 1)); NaN] 2))
    with (mean (pow (map Num [ln (2 / 1)]) 2)).
  exact (parkinson_of_window (ln (2 / 1)) []).
Qed.

(** C6 fails as stated.  With window 0 both series have at least 0 points
    and the last 0 observations are none, so their mean is undefined, yet
    [calculate_parkinson_vol] returns a positive number, the estimate over
    the whole series.  With [high = [1, 2, 2]], [low = [1, 1]] and window
    2, both series have at least 2 points, and the result is not the
    formula over the last 2 pairs. *)
Lemma parkinson_formula_counterexamples :
  ((0 <= len [Num 2])%Z /\ (0 <= len [Num 1])%Z
   /\ spec_parkinson_vol [2] [1] (Z.to_nat 0) = NaN
   /\ calculate_parkinson_vol [Num 2] [Num 1] 0
      <> Ok (spec_parkinson_vol [2] [1] (Z.to_nat 0))
   /\ exists v, 0 < v /\ calculate_parkinson_vol [Num 2] [Num 1] 0 = Ok (Num v))
  /\ ((2 <= len [Num 1; Num 2; Num 2])%Z /\ (2 <= len [Num 1; Num 1])%Z
      /\ calculate_parkinson_vol [Num 1; Num 2; Num 2] [Num 1; Num 1] 2
         <> Ok (spec_parkinson_vol [1; 2; 2] [1; 1] (Z.to_nat 2))).
Proof.
  destruct parkinson_window_zero_example as [E Hpos].
  split.
  - split; [unfold len; simpl; lia |]. split; [unfold len; simpl; lia |].
    split; [reflexivity |]. split.
    + rewrite E. discriminate.
    + eexists. split; [exact Hpos | exact E].
  - split; [unfold len; simpl; lia |]. split; [unfold len; simpl; lia |].
    rewrite parkinson_mismatched_example.
    change (spec_parkinson_vol [1; 2; 2] [1; 1] (Z.to_nat 2))
      with (Num (sqrt (1 / (4 * ln 2)
                       * (Rsum [Rsqr (ln (1 / 1)); Rsqr (ln (2 / 1))] / INR 2)
                       * 252))).
    intros H. injection H as H.
    pose proof ln_2_pos as H2.
    assert (0 < 1 / (4 * ln 2)) as Hf by (apply Rdiv_lt_0_compat; lra).
    replace (2 / 1) with 2 in H by lra.
    replace (1 / 1) with 1 in H by lra. rewrite ln_1, Rsqr_0 in H.
    assert (0 < Rsqr (ln 2)) as Hs by (apply Rlt_0_sqr; lra).
    simpl in H. apply sqrt_inj in H; nra.
Qed.

(** C7, as the code has it.  For a window [w >= 1] and high and low series
    of positive prices, of one length that is at least [w], whose last [w]
    highs equal the last [w] lows, [calculate_parkinson_vol] returns
    exactly 0.0, and no error. *)
Theorem parkinson_flat_window (hs ls : list R) (w : Z) :
  Forall (fun r => 0 < r) hs -> Forall (fun r => 0 < r) ls ->
  List.length hs = List.length ls ->
  (1 <= w <= Z.of_nat (List.length hs))%Z ->
  lastn (Z.to_nat w) hs = lastn (Z.to_nat w) ls ->
  calculate_parkinson_vol (map Num hs) (map Num ls) w = Ok (Num 0).
Proof.
  intros Hh Hl Hlen Hw Heq.
  rewrite parkinson_value
    by (try assumption; unfold len; now rewrite length_map).
  f_equal. apply spec_parkinson_flat; try assumption. lia.
Qed.

Lemma parkinson_flat_window_witness :
  calculate_parkinson_vol (map Num [3; 5; 7]) (map Num [2; 5; 7]) 2
  = Ok (Num 0).
Proof.
  apply (parkinson_flat_window [3; 5; 7] [2; 5; 7] 2).
  - repeat constructor; lra.
  - repeat constructor; lra.
  - reflexivity.
  - simpl. lia.
  - reflexivity.
Defined.

(** C7 fails as stated.  With window 0 no point of the trailing window
    has high different from low, yet the result is not 0.0: on two empty
    series it is [NaN], and on [high = [2.0]], [low = [1.0]] it is the
    estimate over the whole series, a positive number.  With
    [high = [5, 5, 1, 1]], [low = [1, 1]] and window 2 the last two highs
    equal the last two lows, but pairing is by index and the result is
    [NaN].  With a price of 0 in both series the quotient is [NaN] and so
    is the result. *)
Lemma parkinson_flat_window_counterexamples :
  calculate_parkinson_vol [] [] 0 = Ok NaN
  /\ (exists v,
        0 < v /\ calculate_parkinson_vol [Num 2] [Num 1] 0 = Ok (Num v))
  /\ (lastn 2 [Num 5; Num 5; Num 1; Num 1] = lastn 2 [Num 1; Num 1]
      /\ calculate_parkinson_vol [Num 5; Num 5; Num 1; Num 1] [Num 1; Num 1] 2
         = Ok NaN)
  /\ calculate_parkinson_vol [Num 0] [Num 0] 1 = Ok NaN.
Proof.
  split; [| split; [| split]].
  - unfold calculate_parkinson_vol.
    change ((len [] <? 0)%Z || (len [] <? 0)%Z) with false.
    cbv iota. rewrite iloc_from_zero, parkinson_factor. reflexivity.
  - destruct parkinson_window_zero_example as [E Hpos].
    eexists. split; [exact Hpos | exact E].
  - split; [reflexivity |].
    unfold calculate_parkinson_vol.
    change ((len [Num 5; Num 5; Num 1; Num 1] <? 2)%Z
            || (len [Num 1; Num 1] <? 2)%Z) with false.
    cbv iota. rewrite parkinson_factor. reflexivity.
  - unfold calculate_parkinson_vol.
    change ((len [Num 0] <? 1)%Z || (len [Num 0] <? 1)%Z) with false.
    cbv iota. rewrite parkinson_factor.
    change (Series.log (div [Num 0] [Num 0]))
      with [np_log (fdiv (Num 0) (Num 0))].
    assert (fdiv (Num 0) (Num 0) = NaN) as ->
      by (cbn [fdiv]; now rewrite !Reqb_true).
    reflexivity.
Qed.

End ParkinsonClaims.

(** * Close-to-close volatility *)

Section RealizedVol.

Lemma fdiv_price_or_missing (x y : float64) :
  price_or_missing x -> price_or_missing y -> price_or_missing (fdiv x y).
Proof.
  destruct x, y; simpl; intros Hx Hy; try contradiction; trivial.
  rewrite Reqb_false by lra. simpl. now apply Rdiv_lt_0_compat.
Qed.

Lemma np_log_price_or_missing (x : float64) :
  price_or_missing x -> finite_or_nan (np_log x).
Proof.
  destruct x; simpl; intros Hx; try contradiction; trivial.
  now rewrite Rltb_true.
Qed.

Lemma dropna_finite (s : Series) :
  Forall finite_or_nan s -> Forall finite (dropna s).
Proof.
  induction 1 as [|x s Hx _ IH]; [constructor |].
  destruct x; simpl in *; try contradiction; trivial.
  constructor; [exact I | exact IH].
Qed.

(** The cleaned log returns of positive prices, gaps allowed, are finite. *)
Lemma log_returns_finite (prices : Series) :
  Forall price_or_missing prices -> Forall finite (log_returns prices).
Proof.
  intros H. unfold log_returns. apply dropna_finite.
  unfold Series.log. apply Forall_map.
  assert (Forall price_or_missing (div prices (shift1 prices))) as Hd.
  { unfold div. apply Forall_binop with (P := price_or_missing).
    - exact I.
    - apply fdiv_price_or_missing.
    - exact H.
    - apply Forall_shift1; [exact I | exact H]. }
  eapply Forall_impl; [| exact Hd]. apply np_log_price_or_missing.
Qed.

Lemma Rsum_squares_zero_iff (a : R) (xs : list R) :
  Rsum (map (fun x => Rsqr (a - x)) xs) = 0 <-> Forall (fun x => x = a) xs.
Proof.
  induction xs as [|x xs IH]; simpl.
  - split; [constructor | reflexivity].
  - assert (0 <= Rsum (map (fun x => Rsqr (a - x)) xs)) as Hs.
    { clear IH. induction xs as [|y ys IHy]; simpl; [lra |].
      pose proof (Rle_0_sqr (a - y)). lra. }
    pose proof (Rle_0_sqr (a - x)) as Hx. split.
    + intros H. assert (Rsqr (a - x) = 0) as H0 by lra.
      apply Rsqr_0_uniq in H0. constructor; [lra |]. apply IH. lra.
    + intros H. inversion H as [|? ? Hxa Hrest]; subst.
      apply IH in Hrest. rewrite Hrest.
      replace (a - a) with 0 by ring. rewrite Rsqr_0. ring.
Qed.

Lemma Rsum_squares_diff_nonneg (a : R) (xs : list R) :
  0 <= Rsum (map (fun x => Rsqr (a - x)) xs).
Proof.
  induction xs as [|x xs IH]; simpl; [lra |].
  pose proof (Rle_0_sqr (a - x)). lra.
Qed.

Lemma Rsum_const (c : R) (xs : list R) :
  Forall (fun x => x = c) xs -> Rsum xs = INR (List.length xs) * c.
Proof.
  induction 1 as [|x xs Hx _ IH].
  - simpl. ring.
  - change (Rsum (x :: xs)) with (x + Rsum xs).
    rewrite IH, Hx. change (List.length (c :: xs)) with (S (List.length xs)).
    rewrite S_INR. ring.
Qed.

Lemma sample_var_nonneg (xs : list R) :
  (2 <= List.length xs)%nat -> 0 <= sample_var xs.
Proof.
  intros H. unfold sample_var.
  apply Rle_mult_inv_pos; [apply Rsum_squares_diff_nonneg |].
  apply le_INR in H. simpl in H. lra.
Qed.

Lemma sample_var_zero_iff (xs : list R) :
  (2 <= List.length xs)%nat -> sample_var xs = 0 <-> all_identical xs.
Proof.
  intros H.
  assert (2 <= INR (List.length xs)) as Hn
    by (apply le_INR in H; simpl in H; lra).
  unfold sample_var.
  set (avg := Rsum xs / INR (List.length xs)).
  pose proof (Rsum_squares_diff_nonneg avg xs) as Hs.
  assert (Rsum (map (fun x => Rsqr (avg - x)) xs)
            / (INR (List.length xs) - 1) = 0
          <-> Rsum (map (fun x => Rsqr (avg - x)) xs) = 0) as Hz.
  { split; intros E.
    - apply (Rmult_eq_compat_r (INR (List.length xs) - 1)) in E.
      unfold Rdiv in E. rewrite Rmult_assoc, Rinv_l in E by lra. lra.
    - rewrite E. unfold Rdiv. ring. }
  rewrite Hz, Rsum_squares_zero_iff. split.
  - intros Hall x y Hx Hy.
    rewrite Forall_forall in Hall.
    now rewrite (Hall x Hx), (Hall y Hy).
  - intros Hid. destruct xs as [|x0 xs]; [simpl in H; lia |].
    assert (Forall (fun x => x = x0) (x0 :: xs)) as Hx0.
    { apply Forall_forall. intros x Hx. apply Hid; [exact Hx | now left]. }
    assert (avg = x0) as ->.
    { unfold avg. rewrite (Rsum_const x0) by exact Hx0. field. lra. }
    exact Hx0.
Qed.

Lemma var_nums (xs : list R) :
  (2 <= List.length xs)%nat ->
  var (map Num xs) = Num (sample_var xs).
Proof.
  intros H. unfold var. rewrite dropna_nums, length_map.
  replace (List.length xs <=? 1)%nat with false
    by (symmetry; apply Nat.leb_gt; lia).
  assert (2 <= INR (List.length xs)) as Hn
    by (apply le_INR in H; simpl in H; lra).
  rewrite sum_nums, fdiv_num by lra.
  rewrite map_map.
  rewrite (map_ext _ (fun x => Num (Rsqr (Rsum xs / INR (List.length xs) - x)))).
  - rewrite <- (map_map _ Num), sum_nums. apply fdiv_num. lra.
  - intros x. simpl fsub. now rewrite fpow_num_2.
Qed.

Lemma std_nums (xs : list R) :
  (2 <= List.length xs)%nat ->
  std (map Num xs) = Num (sqrt (sample_var xs)).
Proof.
  intros H. unfold std. rewrite var_nums by exact H.
  apply np_sqrt_nonneg. now apply sample_var_nonneg.
Qed.

Lemma all_identical_nums (xs : list R) :
  all_identical (map Num xs) <-> all_identical xs.
Proof.
  unfold all_identical. split.
  - intros H x y Hx Hy.
    assert (Num x = Num y) as E by (apply H; now apply in_map).
    now injection E.
  - intros H x y Hx Hy.
    apply in_map_iff in Hx. destruct Hx as [a [<- Ha]].
    apply in_map_iff in Hy. destruct Hy as [b [<- Hb]].
    f_equal. now apply H.
Qed.

(** The value [calculate_realized_vol] returns when its trailing window
    holds the finite returns [xs]. *)
Lemma realized_vol_value
    (prices : Series) (w : Z) (annualize : bool) (xs : list R) :
  (2 <= w <= len (log_returns prices))%Z ->
  lastn (Z.to_nat w) (log_returns prices) = map Num xs ->
  calculate_realized_vol prices w annualize
  = Ok (Num (if annualize then sqrt (sample_var xs) * sqrt 252
             else sqrt (sample_var xs))).
Proof.
  intros Hw Hwin. unfold calculate_realized_vol.
  decide_guard.
  rewrite iloc_from_window by lia. rewrite Hwin.
  assert (List.length xs = Z.to_nat w) as Hn.
  { rewrite <- (length_map Num), <- Hwin. apply lastn_length.
    unfold len in Hw. lia. }
  rewrite std_nums by lia.
  now destruct annualize.
Qed.

End RealizedVol.

Section RealizedVolClaims.

(** The cleaned log returns of the prices 1, 2, 4. *)
Lemma log_returns_example :
  log_returns [Num 1; Num 2; Num 4] = map Num [ln (2 / 1); ln (4 / 2)].
Proof.
  change (log_returns [Num 1; Num 2; Num 4])
    with (dropna [NaN; np_log (fdiv (Num 2) (Num 1));
                  np_log (fdiv (Num 4) (Num 2))]).
  rewrite !fdiv_num by lra.
  rewrite !np_log_pos by lra.
  reflexivity.
Qed.



(** The cleaned log returns of the prices 1, 2, 3. *)
Lemma log_returns_rising :
  log_returns [Num 1; Num 2; Num 3] = map Num [ln (2 / 1); ln (3 / 2)].
Proof.
  change (log_returns [Num 1; Num 2; Num 3])
    with (dropna [NaN; np_log (fdiv (Num 2) (Num 1));
                  np_log (fdiv (Num 3) (Num 2))]).
  rewrite !fdiv_num by lra.
  rewrite !np_log_pos by lra.
  reflexivity.
Qed.

(** C5, as the code has it.  For a window [w >= 2] and prices that are
    positive where present, with at least [w] cleaned log returns, the
    result of [calculate_realized_vol] is a non-negative number, and it is
    zero only if the [w] trailing returns are all identical.  The converse
    is not stated: for window 1 the result is [NaN], and the standard
    deviation is a floating-point computation in which the mean of
    identical returns need not be that return. *)
Theorem realized_vol_nonneg_zero_only_if_flat
    (prices : Series) (w : Z) (annualize : bool) :
  Forall price_or_missing prices ->
  (2 <= w <= len (log_returns prices))%Z ->
  exists v,
    calculate_realized_vol prices w annualize = Ok (Num v)
    /\ 0 <= v
    /\ (v = 0 -> all_identical (lastn (Z.to_nat w) (log_returns prices))).
Proof.
  intros Hp Hw.
  pose proof (Forall_lastn _ (Z.to_nat w) _ (log_returns_finite _ Hp)) as Hf.
  destruct (finite_series _ Hf) as [xs Hxs].
  assert (List.length xs = Z.to_nat w) as Hn.
  { rewrite <- (length_map Num), <- Hxs. apply lastn_length.
    unfold len in Hw. lia. }
  assert (2 <= List.length xs)%nat as H2 by lia.
  pose proof (sample_var_nonneg xs H2) as Hv.
  pose proof (sqrt_pos (sample_var xs)) as Hs.
  pose proof sqrt_252_pos as H252.
  assert (sqrt (sample_var xs) = 0 -> all_identical xs) as Hz.
  { intros E. apply (sample_var_zero_iff xs H2). now apply sqrt_eq_0. }
  eexists. split; [apply (realized_vol_value _ _ _ xs Hw Hxs) |].
  rewrite Hxs, all_identical_nums.
  destruct annualize.
  - split; [nra |]. intros H. apply Hz. nra.
  - split; [exact Hs | exact Hz].
Qed.

Lemma realized_vol_nonneg_zero_only_if_flat_witness :
  exists v,
    calculate_realized_vol [Num 1; Num 2; Num 3] 2 true = Ok (Num v)
    /\ 0 <= v
    /\ (v = 0 ->
        all_identical (lastn (Z.to_nat 2) (log_returns [Num 1; Num 2; Num 3]))).
Proof.
  apply (realized_vol_nonneg_zero_only_if_flat [Num 1; Num 2; Num 3] 2 true).
  - repeat constructor; simpl; lra.
  - rewrite log_returns_rising. unfold len. simpl. lia.
Defined.

(** C5 fails as stated.  With window 1 on the prices 1, 2, 4 (two
    returns) the sample standard deviation of the single trailing return is
    [NaN], which is neither non-negative nor zero, although that one return
    is trivially identical to itself.  With a price of 0, as in 1, 0, 1, the
    two returns are [-inf] and [+inf] and the result for window 2 is [NaN]
    as well. *)
Lemma realized_vol_counterexamples :
  ((1 <= len (log_returns [Num 1; Num 2; Num 4]))%Z
   /\ all_identical (lastn (Z.to_nat 1) (log_returns [Num 1; Num 2; Num 4]))
   /\ calculate_realized_vol [Num 1; Num 2; Num 4] 1 false = Ok NaN
   /\ calculate_realized_vol [Num 1; Num 2; Num 4] 1 true = Ok NaN)
  /\ (log_returns [Num 1; Num 0; Num 1] = [NInf; PInf]
      /\ calculate_realized_vol [Num 1; Num 0; Num 1] 2 false = Ok NaN).
Proof.
  split.
  - unfold calculate_realized_vol. rewrite log_returns_example.
    split; [unfold len; simpl; lia |]. split.
    + intros x y [<- | []] [<- | []]. reflexivity.
    + split; reflexivity.
  - assert (log_returns [Num 1; Num 0; Num 1] = [NInf; PInf]) as E.
    { change (log_returns [Num 1; Num 0; Num 1])
        with (dropna [NaN; np_log (fdiv (Num 0) (Num 1));
                      np_log (fdiv (Num 1) (Num 0))]).
      rewrite fdiv_num by lra.
      assert (fdiv (Num 1) (Num 0) = PInf) as ->.
      { cbn [fdiv]. rewrite Reqb_true by reflexivity.
        rewrite Reqb_false by lra. now rewrite Rltb_false by lra. }
      assert (np_log (Num (0 / 1)) = NInf) as ->.
      { cbn [np_log]. rewrite Rltb_false by lra. now rewrite Reqb_true by lra. }
      reflexivity. }
    split; [exact E |].
    unfold calculate_realized_vol. rewrite E. reflexivity.
Qed.

End RealizedVolClaims.

(** * The GARCH(1,1) forecast *)

Section ForecastFacts.

Lemma long_run_var_num (w p cv : R) :
  long_run_var_of (Num w) (Num p) (Num cv) = Num (spec_long_run_var w p cv).
Proof.
  unfold long_run_var_of, spec_long_run_var. cbn [flt].
  destruct (Rle_dec 1 p) as [H | H].
  - now rewrite Rltb_false.
  - rewrite Rltb_true by lra. cbn [fsub fadd fneg]. apply fdiv_num. lra.
Qed.

Lemma forecast_var_num (lrv p cv : R) (h : Z) :
  (0 <= h)%Z ->
  forecast_var_of (Num lrv) (Num p) (Num cv) h
  = Num (lrv + p ^ Z.to_nat h * (cv - lrv)).
Proof.
  intros H. unfold forecast_var_of. now rewrite fpow_num_nonneg.
Qed.

Lemma annualized_vol_num (v : R) :
  0 <= v -> annualized_vol_of (Num v) = Ok (Num (sqrt v / 100 * sqrt 252)).
Proof.
  intros H. unfold annualized_vol_of. rewrite math_sqrt_nonneg by exact H.
  cbn [bind]. rewrite fdiv_num by lra. reflexivity.
Qed.

Lemma py_max_num (x : R) : py_max (Num x) (Num 0) = Num (Rmax x 0).
Proof.
  unfold py_max, Rmax. cbn [flt].
  destruct (Rle_dec x 0) as [H | H].
  - destruct (Rlt_dec x 0) as [Hlt | Hge].
    + now rewrite Rltb_true.
    + rewrite Rltb_false by lra. f_equal. lra.
  - now rewrite Rltb_false by lra.
Qed.

Lemma ln_below_one (p : R) : 0 < p < 1 -> ln p < 0.
Proof. intros [H0 H1]. rewrite <- ln_1. now apply ln_increasing. Qed.

Lemma half_life_num (p : R) :
  half_life_of (Num p) = Ok (half_life_value p).
Proof.
  unfold half_life_of, half_life_value. cbn [flt].
  destruct (Rlt_dec 0 p) as [H0 | H0].
  - rewrite (Rltb_true 0 p) by exact H0.
    destruct (Rlt_dec p 1) as [H1 | H1].
    + rewrite Rltb_true by exact H1. simpl andb. cbv iota.
      rewrite math_log_pos by lra. cbn [bind].
      rewrite math_log_pos by exact H0. cbn [bind].
      pose proof (ln_below_one p (conj H0 H1)) as Hl.
      unfold py_truediv. cbn [fneg].
      rewrite Reqb_false by lra. f_equal. apply fdiv_num. lra.
    + now rewrite Rltb_false by lra.
  - now rewrite (Rltb_false 0 p) by lra.
Qed.

(** A run of [forecast_garch] on enough returns, for a fit that succeeds
    with finite parameters and a finite last conditional volatility. *)
Lemma forecast_garch_value
    (fit : Series -> result ARCHModelResult) (returns : Series) (h : Z)
    (res : ARCHModelResult) (w a b c : R) :
  (100 <= len (dropna returns))%Z ->
  (0 <= h)%Z ->
  fit (scale (dropna returns) (Num 100)) = Ok res ->
  omega res = Num w -> alpha res = Num a -> beta res = Num b ->
  iloc_last (conditional_volatility res) = Ok (Num c) ->
  forecast_garch fit returns h
  = Ok {| current_vol := py_round (Num (sqrt (c * c) / 100 * sqrt 252)) 4;
          forecast_vol :=
            py_round
              (Num (sqrt (Rmax (spec_forecast_var w (a + b) (c * c)
                                                  (Z.to_nat h)) 0)
                    / 100 * sqrt 252)) 4;
          persistence := py_round (Num (a + b)) 4;
          half_life := py_round (half_life_value (a + b)) 1 |}.
Proof.
  intros Hlen Hh Hfit Hw Ha Hb Hc. unfold forecast_garch.
  rewrite len_scale.
  decide_guard.
  rewrite Hfit. cbn [bind]. rewrite Hc. cbn [bind].
  rewrite Hw, Ha, Hb. cbn [fadd]. rewrite fpow_num_2.
  rewrite long_run_var_num, forecast_var_num by exact Hh.
  rewrite annualized_vol_num by nra. cbn [bind].
  rewrite py_max_num.
  rewrite annualized_vol_num by apply Rmax_r. cbn [bind].
  rewrite half_life_num. reflexivity.
Qed.


Lemma Int_part_between (z : Z) (x : R) :
  IZR z <= x < IZR z + 1 -> Int_part x = z.
Proof. intros H. symmetry. apply Int_part_spec. lra. Qed.

Lemma round_half_even_down (z : Z) (x : R) :
  IZR z <= x < IZR z + 1 / 2 -> round_half_even x = z.
Proof.
  intros H. unfold round_half_even.
  rewrite (Int_part_between z x) by lra.
  now rewrite Rltb_true by lra.
Qed.

Lemma round_half_even_nonneg (x : R) : 0 <= x -> (0 <= round_half_even x)%Z.
Proof.
  intros H. unfold round_half_even.
  destruct (base_Int_part x) as [Hle Hgt].
  assert (0 <= Int_part x)%Z as Hf.
  { assert (-1 < Int_part x)%Z; [| lia]. apply lt_IZR. lra. }
  destruct (Rltb _ _); [exact Hf |].
  destruct (Rltb _ _); [lia |].
  destruct (Z.even _); lia.
Qed.

Lemma py_round_nonneg (a : R) (n : nat) :
  0 <= a -> exists q, py_round (Num a) n = Num q /\ 0 <= q.
Proof.
  intros H. eexists. split; [reflexivity |].
  assert (0 < 10 ^ n) as Hp by (apply pow_lt; lra).
  apply Rle_mult_inv_pos; [| exact Hp].
  apply IZR_le, round_half_even_nonneg. nra.
Qed.


End ForecastFacts.

Section ForecastClaims.

(** A run on [sample_returns] with a fit that reports [omega = 1] and
    [alpha = beta = 1/16]. *)
Lemma sample_run :
  forecast_garch (constant_fit 1 (1 / 16) (1 / 16)) sample_returns 5
  = Ok {| current_vol :=
            py_round (Num (sqrt (1 / 100 * 100 * (1 / 100 * 100))
                           / 100 * sqrt 252)) 4;
          forecast_vol :=
            py_round
              (Num (sqrt (Rmax (spec_forecast_var
                                  1 (1 / 16 + 1 / 16)
                                  (1 / 100 * 100 * (1 / 100 * 100))
                                  (Z.to_nat 5)) 0)
                    / 100 * sqrt 252)) 4;
          persistence := py_round (Num (1 / 16 + 1 / 16)) 4;
          half_life := py_round (half_life_value (1 / 16 + 1 / 16)) 1 |}.
Proof.
  apply (forecast_garch_value
           (constant_fit 1 (1 / 16) (1 / 16)) sample_returns 5
           {| omega := Num 1; alpha := Num (1 / 16); beta := Num (1 / 16);
              conditional_volatility :=
                scale (dropna sample_returns) (Num 100) |}
           1 (1 / 16) (1 / 16) (1 / 100 * 100)).
  - apply Z.leb_le. reflexivity.
  - lia.
  - reflexivity.
  - reflexivity.
  - reflexivity.
  - reflexivity.
  - reflexivity.
Qed.






(** C10.  For fitted parameters [omega > 0], [alpha >= 0], [beta >= 0],
    a current variance [>= 0] and a horizon [h >= 0], which covers every
    horizon [h >= 1] of the forecaster, the forecast variance is a
    non-negative number: the clamp [max(forecast_var, 0)] returns it
    unchanged and the square root is taken of a non-negative number. *)
Theorem forecast_variance_nonneg (w a b cv : R) (h : Z) :
  0 < w -> 0 <= a -> 0 <= b -> 0 <= cv -> (0 <= h)%Z ->
  exists fv,
    forecast_var_of
      (long_run_var_of (Num w) (fadd (Num a) (Num b)) (Num cv))
      (fadd (Num a) (Num b)) (Num cv) h
    = Num fv
    /\ 0 <= fv
    /\ py_max (Num fv) (Num 0) = Num fv
    /\ math_sqrt (py_max (Num fv) (Num 0)) = Ok (Num (sqrt fv)).
Proof.
  intros Hw Ha Hb Hcv Hh. cbn [fadd].
  rewrite long_run_var_num, forecast_var_num by exact Hh.
  set (p := a + b). set (n := Z.to_nat h).
  assert (0 <= p) as Hp by (unfold p; lra).
  assert (0 <= spec_long_run_var w p cv + p ^ n * (cv - spec_long_run_var w p cv))
    as Hfv.
  { unfold spec_long_run_var. destruct (Rle_dec 1 p) as [H1 | H1].
    - replace (cv + p ^ n * (cv - cv)) with cv by ring. exact Hcv.
    - assert (0 < w / (1 - p)) as Hl by (apply Rdiv_lt_0_compat; lra).
      assert (0 <= p ^ n) as Hpn by (now apply pow_le).
      assert (p ^ n <= 1) as Hpn1.
      { rewrite <- (pow1 n). apply pow_incr. lra. }
      nra. }
  eexists. split; [reflexivity |]. split; [exact Hfv |].
  assert (py_max (Num (spec_long_run_var w p cv
                       + p ^ n * (cv - spec_long_run_var w p cv))) (Num 0)
          = Num (spec_long_run_var w p cv
                 + p ^ n * (cv - spec_long_run_var w p cv))) as Em.
  { rewrite py_max_num. f_equal. now apply Rmax_left. }
  split; [exact Em |]. rewrite Em. now apply math_sqrt_nonneg.
Qed.

Lemma forecast_variance_nonneg_witness :
  exists fv,
    forecast_var_of
      (long_run_var_of (Num 1) (fadd (Num (1 / 2)) (Num (1 / 4))) (Num 3))
      (fadd (Num (1 / 2)) (Num (1 / 4))) (Num 3) 5
    = Num fv
    /\ 0 <= fv
    /\ py_max (Num fv) (Num 0) = Num fv
    /\ math_sqrt (py_max (Num fv) (Num 0)) = Ok (Num (sqrt fv)).
Proof.
  apply (forecast_variance_nonneg 1 (1 / 2) (1 / 4) 3 5); lra || lia.
Defined.

End ForecastClaims.

(** * More on the close-to-close estimator *)

Section LogReturns.

Lemma removelast_map {A B : Type} (f : A -> B) (l : list A) :
  removelast (map f l) = map f (removelast l).
Proof.
  induction l as [|x l IH]; [reflexivity |].
  simpl. destruct l as [|y l]; [reflexivity |].
  change (map f (y :: l)) with (f y :: map f l) in *. now rewrite IH.
Qed.

Lemma combine_removelast {A B : Type} (a : list A) (b : list B) :
  List.length b = S (List.length a) ->
  combine a (removelast b) = combine a b.
Proof.
  revert b. induction a as [|x a IH]; intros b H; [reflexivity |].
  destruct b as [|y b]; [discriminate |].
  destruct b as [|z b]; [discriminate |].
  change (removelast (y :: z :: b)) with (y :: removelast (z :: b)).
  cbn [combine]. f_equal. apply IH. simpl in *. lia.
Qed.

Lemma length_removelast {A : Type} (l : list A) :
  List.length (removelast l) = (List.length l - 1)%nat.
Proof.
  induction l as [|x l IH]; [reflexivity |].
  destruct l as [|y l]; [reflexivity |].
  change (removelast (x :: y :: l)) with (x :: removelast (y :: l)).
  simpl List.length in *. lia.
Qed.

Lemma length_binop f (a b : Series) :
  List.length (binop f a b) = Nat.max (List.length a) (List.length b).
Proof.
  revert b. induction a as [|x a IH]; intros b.
  - simpl. now rewrite length_map.
  - destruct b as [|y b].
    + change (binop f (x :: a) []) with (map (fun x' => f x' NaN) (x :: a)).
      rewrite length_map. simpl. lia.
    + simpl. now rewrite IH.
Qed.

Lemma length_dropna_le (s : Series) :
  (List.length (dropna s) <= List.length s)%nat.
Proof. apply filter_length_le. Qed.

Lemma fdiv_nan_r (x : float64) : fdiv x NaN = NaN.
Proof. now destruct x. Qed.

(** The first quotient [prices / prices.shift(1)] is [NaN] and is dropped:
    a price series never gives more returns than it has prices, less one. *)
Lemma log_returns_length_le (prices : Series) :
  (List.length (log_returns prices) <= List.length prices - 1)%nat.
Proof.
  unfold log_returns, Series.log, div.
  destruct prices as [|x rest]; [simpl; lia |].
  change (shift1 (x :: rest)) with (NaN :: removelast (x :: rest)).
  change (binop fdiv (x :: rest) (NaN :: removelast (x :: rest)))
    with (fdiv x NaN :: binop fdiv rest (removelast (x :: rest))).
  rewrite fdiv_nan_r.
  change (dropna (map np_log (NaN :: binop fdiv rest (removelast (x :: rest)))))
    with (dropna (map np_log (binop fdiv rest (removelast (x :: rest))))).
  etransitivity; [apply length_dropna_le |].
  rewrite length_map, length_binop, length_removelast. simpl. lia.
Qed.

Lemma log_returns_nums (ps : list R) :
  Forall (fun r => 0 < r) ps ->
  log_returns (map Num ps) = map Num (adjacent_log_returns ps).
Proof.
  intros Hp. destruct ps as [|p0 rest]; [reflexivity |].
  unfold log_returns, Series.log, div, adjacent_log_returns.
  change (shift1 (map Num (p0 :: rest)))
    with (NaN :: removelast (map Num (p0 :: rest))).
  change (binop fdiv (map Num (p0 :: rest))
                (NaN :: removelast (map Num (p0 :: rest))))
    with (fdiv (Num p0) NaN
            :: binop fdiv (map Num rest) (removelast (map Num (p0 :: rest)))).
  rewrite fdiv_nan_r, removelast_map.
  rewrite binop_map2 by (rewrite length_removelast; simpl; lia).
  rewrite combine_removelast by reflexivity.
  change (tl (p0 :: rest)) with rest.
  change (dropna
            (map np_log
               (NaN :: map (fun '(x, y) => fdiv (Num x) (Num y))
                           (combine rest (p0 :: rest)))))
    with (dropna
            (map np_log
               (map (fun '(x, y) => fdiv (Num x) (Num y))
                    (combine rest (p0 :: rest))))).
  rewrite map_map.
  rewrite (map_ext_in _ (fun q => Num (let '(b, a) := q in ln (b / a)))).
  - rewrite <- (map_map (fun '(b, a) => ln (b / a)) Num). apply dropna_nums.
  - intros [b a] Hin.
    assert (0 < b) as Hb.
    { apply in_combine_l in Hin. inversion Hp as [|? ? _ Hrest]; subst.
      revert b Hin. now apply Forall_forall. }
    assert (0 < a) as Ha.
    { apply in_combine_r in Hin. revert a Hin. now apply Forall_forall. }
    rewrite fdiv_num by lra. apply np_log_pos. now apply Rdiv_lt_0_compat.
Qed.

Lemma length_adjacent_log_returns (ps : list R) :
  List.length (adjacent_log_returns ps) = (List.length ps - 1)%nat.
Proof.
  unfold adjacent_log_returns. rewrite length_map, length_combine.
  destruct ps; simpl; lia.
Qed.

Lemma tl_skipn {A : Type} (k : nat) (l : list A) :
  tl (skipn k l) = skipn k (tl l).
Proof.
  change (tl (skipn k l)) with (skipn 1 (skipn k l)).
  change (tl l) with (skipn 1 l).
  rewrite !skipn_skipn. f_equal. lia.
Qed.

Lemma adjacent_log_returns_skipn (k : nat) (ps : list R) :
  adjacent_log_returns (skipn k ps) = skipn k (adjacent_log_returns ps).
Proof.
  unfold adjacent_log_returns.
  now rewrite skipn_map, skipn_combine, tl_skipn.
Qed.

End LogReturns.

Section RealizedVolExtras.

(** X1.  On a series of positive prices without gaps the cleaned log
    returns are the logs of the quotients of consecutive prices, one fewer
    than the prices. *)
Theorem log_returns_one_shorter (ps : list R) :
  Forall (fun r => 0 < r) ps ->
  log_returns (map Num ps) = map Num (adjacent_log_returns ps)
  /\ List.length (log_returns (map Num ps)) = (List.length ps - 1)%nat.
Proof.
  intros Hp. rewrite log_returns_nums by exact Hp.
  split; [reflexivity |].
  now rewrite length_map, length_adjacent_log_returns.
Qed.

Lemma log_returns_one_shorter_witness :
  log_returns (map Num [1; 2; 4]) = map Num (adjacent_log_returns [1; 2; 4])
  /\ List.length (log_returns (map Num [1; 2; 4]))
     = (List.length [1; 2; 4] - 1)%nat.
Proof.
  apply (log_returns_one_shorter [1; 2; 4]).
  repeat constructor; lra.
Defined.

(** X2.  A window of [w >= 1] needs [w + 1] prices: on any series of at
    most [w] prices, whatever it holds, [calculate_realized_vol] raises its
    insufficient-data error. *)
Theorem realized_vol_needs_one_more_price
    (prices : Series) (window : Z) (annualize : bool) :
  (1 <= window)%Z -> (len prices <= window)%Z ->
  (len (log_returns prices) < window)%Z
  /\ calculate_realized_vol prices window annualize
     = Raise (ValueError ("Need at least " ++ str window ++ " returns, got "
                            ++ str (len (log_returns prices)))%string).
Proof.
  intros Hw Hlen.
  assert (len (log_returns prices) < window)%Z as H.
  { pose proof (log_returns_length_le prices). unfold len in *. lia. }
  split; [exact H | now apply realized_vol_raises].
Qed.

Lemma realized_vol_needs_one_more_price_witness :
  (len (log_returns [Num 100; Num 101; Num 102]) < 20)%Z
  /\ calculate_realized_vol [Num 100; Num 101; Num 102] 20 true
     = Raise (ValueError
                ("Need at least " ++ str 20 ++ " returns, got "
                   ++ str (len (log_returns [Num 100; Num 101; Num 102])))%string).
Proof.
  apply (realized_vol_needs_one_more_price [Num 100; Num 101; Num 102] 20 true).
  - lia.
  - unfold len. simpl. lia.
Defined.

(** X4.  Only the trailing prices count: for a window [w >= 1] and at
    least [w + 1] positive prices, the result is that of the last [w + 1]
    prices alone. *)
Theorem realized_vol_of_trailing_prices
    (ps : list R) (w : Z) (annualize : bool) :
  Forall (fun r => 0 < r) ps ->
  (1 <= w)%Z -> (w + 1 <= Z.of_nat (List.length ps))%Z ->
  calculate_realized_vol (map Num ps) w annualize
  = calculate_realized_vol (map Num (lastn (Z.to_nat w + 1) ps)) w annualize.
Proof.
  intros Hp Hw Hlen.
  assert (Forall (fun r => 0 < r) (lastn (Z.to_nat w + 1) ps)) as Hp'
    by (now apply Forall_lastn).
  assert (List.length (lastn (Z.to_nat w + 1) ps) = (Z.to_nat w + 1)%nat) as Hl
    by (apply lastn_length; lia).
  unfold calculate_realized_vol.
  rewrite (log_returns_nums ps) by exact Hp.
  rewrite (log_returns_nums (lastn (Z.to_nat w + 1) ps)) by exact Hp'.
  unfold len. rewrite !length_map, !length_adjacent_log_returns, Hl.
  decide_guard.
  rewrite !iloc_from_window
    by (unfold len; rewrite length_map, length_adjacent_log_returns; lia).
  rewrite !lastn_map.
  assert (lastn (Z.to_nat w) (adjacent_log_returns ps)
          = lastn (Z.to_nat w)
                  (adjacent_log_returns (lastn (Z.to_nat w + 1) ps))) as E.
  { unfold lastn at 1 2.
    rewrite !length_adjacent_log_returns, Hl.
    replace (Z.to_nat w + 1 - 1 - Z.to_nat w)%nat with 0%nat by lia.
    unfold lastn. rewrite adjacent_log_returns_skipn.
    cbn [skipn]. f_equal. lia. }
  now rewrite E.
Qed.

Lemma realized_vol_of_trailing_prices_witness :
  calculate_realized_vol (map Num [3; 1; 2; 4]) 2 true
  = calculate_realized_vol
      (map Num (lastn (Z.to_nat 2 + 1) [3; 1; 2; 4])) 2 true.
Proof.
  apply (realized_vol_of_trailing_prices [3; 1; 2; 4] 2 true).
  - repeat constructor; lra.
  - lia.
  - simpl. lia.
Defined.

End RealizedVolExtras.

(** * More on the Parkinson estimator *)

Section ParkinsonExtras.

Lemma math_sqrt_result (x v : float64) :
  math_sqrt x = Ok v -> not_negative v.
Proof.
  destruct x; simpl; try discriminate.
  - destruct (Rltb r 0); [discriminate |].
    intros H. injection H as <-. simpl. apply sqrt_pos.
  - intros H. now injection H as <-.
  - intros H. now injection H as <-.
Qed.

(** X5.  Whatever the two series hold, a value returned by
    [calculate_parkinson_vol] is never below zero: it is a non-negative
    number, [+inf] or [NaN]. *)
Theorem parkinson_result_not_negative
    (high low : Series) (window : Z) (v : float64) :
  calculate_parkinson_vol high low window = Ok v -> not_negative v.
Proof.
  unfold calculate_parkinson_vol.
  destruct ((len high <? window)%Z || (len low <? window)%Z); [discriminate |].
  apply math_sqrt_result.
Qed.

Lemma parkinson_result_not_negative_witness :
  not_negative
    (Num (sqrt (1 / (4 * ln 2) * (Rsum [Rsqr (ln (2 / 1))] / INR 1) * 252))).
Proof.
  exact (parkinson_result_not_negative
           [Num 1; Num 2; Num 2] [Num 1; Num 1] 2 _
           parkinson_mismatched_example).
Defined.

Lemma lastn_all {A : Type} (w : nat) (l : list A) :
  List.length l = w -> lastn w l = l.
Proof. intros <-. unfold lastn. now rewrite Nat.sub_diag. Qed.

(** X8.  Only the trailing window counts: for a window [w >= 1] and two
    series of positive prices, of one length that is at least [w], the
    result is that of the last [w] highs and lows alone. *)
Theorem parkinson_of_trailing_window (hs ls : list R) (w : Z) :
  Forall (fun r => 0 < r) hs -> Forall (fun r => 0 < r) ls ->
  List.length hs = List.length ls ->
  (1 <= w <= Z.of_nat (List.length hs))%Z ->
  calculate_parkinson_vol (map Num hs) (map Num ls) w
  = calculate_parkinson_vol (map Num (lastn (Z.to_nat w) hs))
                            (map Num (lastn (Z.to_nat w) ls)) w.
Proof.
  intros Hh Hl Hlen Hw.
  assert (List.length (lastn (Z.to_nat w) hs) = Z.to_nat w) as Lh
    by (apply lastn_length; lia).
  assert (List.length (lastn (Z.to_nat w) ls) = Z.to_nat w) as Ll
    by (apply lastn_length; lia).
  rewrite (parkinson_value hs ls)
    by (try assumption; unfold len; now rewrite length_map).
  rewrite (parkinson_value (lastn (Z.to_nat w) hs) (lastn (Z.to_nat w) ls))
    by (try (now apply Forall_lastn); try congruence;
        unfold len; rewrite length_map; lia).
  f_equal. unfold spec_parkinson_vol.
  rewrite (lastn_all (Z.to_nat w)
             (combine (lastn (Z.to_nat w) hs) (lastn (Z.to_nat w) ls)))
    by (rewrite length_combine; lia).
  now rewrite <- lastn_combine by exact Hlen.
Qed.

Lemma parkinson_of_trailing_window_witness :
  calculate_parkinson_vol (map Num [2; 4; 6]) (map Num [1; 2; 5]) 2
  = calculate_parkinson_vol (map Num (lastn (Z.to_nat 2) [2; 4; 6]))
                            (map Num (lastn (Z.to_nat 2) [1; 2; 5])) 2.
Proof.
  apply (parkinson_of_trailing_window [2; 4; 6] [1; 2; 5] 2).
  - repeat constructor; lra.
  - repeat constructor; lra.
  - reflexivity.
  - simpl. lia.
Defined.

Lemma Rsum_squares_zero (rs : list R) :
  Rsum (map Rsqr rs) = 0 -> Forall (fun r => r = 0) rs.
Proof.
  induction rs as [|r rs IH]; [constructor |].
  simpl. intros H.
  pose proof (Rle_0_sqr r) as Hr.
  pose proof (Rsum_squares_nonneg rs) as Hs.
  constructor.
  - apply Rsqr_0_uniq. unfold Rsum in *. lra.
  - apply IH. unfold Rsum in *. lra.
Qed.

Lemma combine_diag_eq {A : Type} (a b : list A) :
  List.length a = List.length b ->
  (forall x y, In (x, y) (combine a b) -> x = y) -> a = b.
Proof.
  revert b. induction a as [|x a IH]; intros [|y b] Hlen H;
    try discriminate; [reflexivity |].
  f_equal.
  - apply H. now left.
  - apply IH; [now injection Hlen |].
    intros u v Hin. apply H. now right.
Qed.

(** X9.  A result of exactly zero means a flat window: for a window
    [w >= 1] and two series of positive prices, of one length that is at
    least [w], if [calculate_parkinson_vol] returns 0.0 then each of the
    last [w] highs equals its low. *)
Theorem parkinson_zero_only_if_flat (hs ls : list R) (w : Z) :
  Forall (fun r => 0 < r) hs -> Forall (fun r => 0 < r) ls ->
  List.length hs = List.length ls ->
  (1 <= w <= Z.of_nat (List.length hs))%Z ->
  calculate_parkinson_vol (map Num hs) (map Num ls) w = Ok (Num 0) ->
  lastn (Z.to_nat w) hs = lastn (Z.to_nat w) ls.
Proof.
  intros Hh Hl Hlen Hw H.
  rewrite parkinson_value in H
    by (try assumption; unfold len; now rewrite length_map).
  injection H as H. unfold spec_parkinson_vol in H.
  assert (List.length (lastn (Z.to_nat w) (combine hs ls)) = Z.to_nat w) as Hn
    by (apply lastn_length; rewrite length_combine; lia).
  pose proof (Forall_lastn _ (Z.to_nat w) _ Hh) as Hh'.
  pose proof (Forall_lastn _ (Z.to_nat w) _ Hl) as Hl'.
  apply combine_diag_eq.
  { rewrite !lastn_length by lia. reflexivity. }
  rewrite <- lastn_combine by exact Hlen.
  destruct (lastn (Z.to_nat w) (combine hs ls)) as [|p obs] eqn:E;
    [simpl in Hn; lia |].
  rewrite <- E in *. clear E p obs.
  set (obs := lastn (Z.to_nat w) (combine hs ls)) in *.
  injection H as H.
  set (sq := map (fun '(h, l) => Rsqr (ln (h / l))) obs) in *.
  assert (sq = map Rsqr (map (fun '(h, l) => ln (h / l)) obs)) as Esq.
  { unfold sq. rewrite map_map. apply map_ext. now intros [h l]. }
  assert (0 <= Rsum sq) as Hs
    by (rewrite Esq; apply Rsum_squares_nonneg).
  assert (0 < INR (List.length obs)) as Hpos
    by (apply lt_0_INR; lia).
  pose proof ln_2_pos as H2.
  assert (0 < 1 / (4 * ln 2)) as Hf by (apply Rdiv_lt_0_compat; lra).
  assert (0 <= Rsum sq / INR (List.length obs)) as Hm
    by (now apply Rle_mult_inv_pos).
  apply sqrt_eq_0 in H; [| nra].
  assert (Rsum sq / INR (List.length obs) = 0) as Hm0 by nra.
  assert (Rsum sq = 0) as Hs0.
  { apply (Rmult_eq_compat_r (INR (List.length obs))) in Hm0.
    unfold Rdiv in Hm0. rewrite Rmult_assoc, Rinv_l in Hm0 by lra. lra. }
  rewrite Esq in Hs0.
  apply Rsum_squares_zero in Hs0.
  rewrite Forall_map, Forall_forall in Hs0.
  intros x y Hin. specialize (Hs0 _ Hin). simpl in Hs0.
  unfold obs in Hin. rewrite lastn_combine in Hin by exact Hlen.
  assert (0 < x) as Hx.
  { rewrite Forall_forall in Hh'. apply Hh'.
    exact (in_combine_l _ _ _ _ Hin). }
  assert (0 < y) as Hy.
  { rewrite Forall_forall in Hl'. apply Hl'.
    exact (in_combine_r _ _ _ _ Hin). }
  assert (x / y = 1) as E1.
  { apply ln_inv; [now apply Rdiv_lt_0_compat | lra |].
    now rewrite ln_1. }
  apply (Rmult_eq_compat_r y) in E1.
  unfold Rdiv in E1. rewrite Rmult_assoc, Rinv_l in E1 by lra. lra.
Qed.

Lemma parkinson_zero_only_if_flat_witness :
  lastn (Z.to_nat 2) [3; 5; 7] = lastn (Z.to_nat 2) [2; 5; 7].
Proof.
  apply (parkinson_zero_only_if_flat [3; 5; 7] [2; 5; 7] 2).
  - repeat constructor; lra.
  - repeat constructor; lra.
  - reflexivity.
  - simpl. lia.
  - rewrite parkinson_value.
    + f_equal. apply spec_parkinson_flat.
      * repeat constructor; lra.
      * reflexivity.
      * simpl. lia.
      * reflexivity.
    + repeat constructor; lra.
    + repeat constructor; lra.
    + reflexivity.
    + unfold len. simpl. lia.
Defined.

End ParkinsonExtras.

(** * More on the GARCH(1,1) forecast *)

Section ForecastExtras.

Lemma dropna_idempotent (s : Series) : dropna (dropna s) = dropna s.
Proof.
  unfold dropna. induction s as [|x s IH]; [reflexivity |].
  simpl. destruct (negb (is_nan x)) eqn:E; [| exact IH].
  simpl. rewrite E. now f_equal.
Qed.

(** X10.  Missing values in the input do not matter: [forecast_garch] on a
    return series is [forecast_garch] on the series with its [NaN] entries
    removed. *)
Theorem forecast_garch_ignores_nan
    (fit : Series -> result ARCHModelResult) (returns : Series) (h : Z) :
  forecast_garch fit (dropna returns) h = forecast_garch fit returns h.
Proof. unfold forecast_garch. now rewrite dropna_idempotent. Qed.

Lemma annualized_vol_result (x v : float64) :
  annualized_vol_of x = Ok v -> not_negative v.
Proof.
  unfold annualized_vol_of.
  destruct (math_sqrt x) as [s | e] eqn:E; [| discriminate].
  cbn [bind]. intros H. injection H as <-.
  apply math_sqrt_result in E.
  apply fmul_not_negative; [apply sqrt_252_pos |].
  apply fdiv_not_negative; [lra | exact E].
Qed.

Lemma annualized_vol_total (x : float64) :
  not_negative x -> exists v, annualized_vol_of x = Ok v.
Proof.
  intros H. unfold annualized_vol_of.
  destruct (math_sqrt_not_negative x H) as [s ->]. cbn [bind]. eauto.
Qed.

Lemma py_max_zero_not_negative (x : float64) :
  not_negative (py_max x (Num 0)).
Proof.
  unfold py_max. destruct x; cbn [flt]; simpl; trivial.
  - unfold Rltb. destruct (Rlt_dec r 0); simpl; lra.
  - lra.
Qed.

Lemma half_life_result (p : float64) :
  exists hl,
    half_life_of p = Ok hl
    /\ (hl = PInf \/ exists q, hl = Num q /\ 0 < q).
Proof.
  destruct p as [r | | |];
    try (exists PInf; split; [reflexivity | now left]).
  rewrite half_life_num. eexists. split; [reflexivity |].
  unfold half_life_value.
  destruct (Rlt_dec 0 r) as [H0 | H0]; [| now left].
  destruct (Rlt_dec r 1) as [H1 | H1]; [| now left].
  right. eexists. split; [reflexivity |].
  pose proof (ln_below_one r (conj H0 H1)). pose proof ln_2_pos.
  apply Rdiv_lt_0_compat; lra.
Qed.

Lemma py_round_not_negative (x : float64) (n : nat) :
  not_negative x -> not_negative (py_round x n).
Proof.
  destruct x; simpl; trivial. intros H.
  destruct (py_round_nonneg r n H) as [q [E Hq]].
  simpl in E. injection E as <-. exact Hq.
Qed.

(** Every step of a successful run. *)
Lemma forecast_garch_steps
    (fit : Series -> result ARCHModelResult) (returns : Series) (h : Z)
    (d : GarchForecast) :
  forecast_garch fit returns h = Ok d ->
  exists res c cvol fvol hl,
    fit (scale (dropna returns) (Num 100)) = Ok res
    /\ iloc_last (conditional_volatility res) = Ok c
    /\ annualized_vol_of (fpow c 2) = Ok cvol
    /\ annualized_vol_of
         (py_max (forecast_var_of
                    (long_run_var_of (omega res) (fadd (alpha res) (beta res))
                                     (fpow c 2))
                    (fadd (alpha res) (beta res)) (fpow c 2) h) (Num 0))
       = Ok fvol
    /\ half_life_of (fadd (alpha res) (beta res)) = Ok hl
    /\ d = {| current_vol := py_round cvol 4;
              forecast_vol := py_round fvol 4;
              persistence := py_round (fadd (alpha res) (beta res)) 4;
              half_life := py_round hl 1 |}.
Proof.
  unfold forecast_garch. intros H.
  destruct (len (scale (dropna returns) (Num 100)) <? 100)%Z; [discriminate |].
  destruct (fit (scale (dropna returns) (Num 100))) as [res | e] eqn:Efit;
    [| discriminate].
  cbn [bind] in H.
  destruct (iloc_last (conditional_volatility res)) as [c | e] eqn:Ec;
    [| discriminate].
  cbn [bind] in H.
  destruct (annualized_vol_of (fpow c 2)) as [cvol | e] eqn:Ecv;
    [| discriminate].
  cbn [bind] in H.
  match type of H with
  | context [annualized_vol_of ?x] =>
      destruct (annualized_vol_of x) as [fvol | e] eqn:Ef; [| discriminate]
  end.
  cbn [bind] in H.
  destruct (half_life_of (fadd (alpha res) (beta res))) as [hl | e] eqn:Ehl;
    [| discriminate].
  cbn [bind] in H. injection H as <-.
  exists res, c, cvol, fvol, hl. repeat split; reflexivity || assumption.
Qed.

(** X11.  With at least 100 non-NaN returns, [forecast_garch] fails only
    where the fit does: it raises what the fit raises, it raises
    [IndexError] when the fit reports no conditional volatility, and
    otherwise it returns a result, whatever the fitted parameters and the
    horizon are: the square roots, the logarithms and the division of the
    function never raise. *)
Theorem forecast_garch_fails_only_with_fit
    (fit : Series -> result ARCHModelResult) (returns : Series) (h : Z) :
  (100 <= len (dropna returns))%Z ->
  match fit (scale (dropna returns) (Num 100)) with
  | Raise e => forecast_garch fit returns h = Raise e
  | Ok res =>
      match conditional_volatility res with
      | [] =>
          forecast_garch fit returns h
          = Raise (IndexError "single positional indexer is out-of-bounds")
      | _ :: _ => exists d, forecast_garch fit returns h = Ok d
      end
  end.
Proof.
  intros Hlen. unfold forecast_garch. rewrite len_scale. decide_guard.
  destruct (fit (scale (dropna returns) (Num 100))) as [res | e];
    [| reflexivity].
  cbn [bind].
  destruct (conditional_volatility res) as [|x xs] eqn:Ec; [reflexivity |].
  change (iloc_last (x :: xs)) with (Ok (last (x :: xs) NaN)).
  cbn [bind].
  destruct (annualized_vol_total _ (fpow_2_not_negative (last (x :: xs) NaN)))
    as [cvol ->].
  cbn [bind].
  destruct (annualized_vol_total _ (py_max_zero_not_negative
    (forecast_var_of
       (long_run_var_of (omega res) (fadd (alpha res) (beta res))
                        (fpow (last (x :: xs) NaN) 2))
       (fadd (alpha res) (beta res)) (fpow (last (x :: xs) NaN) 2) h)))
    as [fvol ->].
  cbn [bind].
  destruct (half_life_result (fadd (alpha res) (beta res))) as [hl [-> _]].
  cbn [bind]. eauto.
Qed.

Lemma forecast_garch_fails_only_with_fit_witness :
  exists d,
    forecast_garch (constant_fit 1 (1 / 16) (1 / 16)) sample_returns (-3)
    = Ok d.
Proof.
  assert (100 <= len (dropna sample_returns))%Z as H
    by (apply Z.leb_le; reflexivity).
  exact (forecast_garch_fails_only_with_fit
           (constant_fit 1 (1 / 16) (1 / 16)) sample_returns (-3) H).
Defined.

(** X12.  In every result of [forecast_garch] the two volatilities are not
    below zero, and the half-life is [+inf] or a non-negative number. *)
Theorem forecast_garch_result_not_negative
    (fit : Series -> result ARCHModelResult) (returns : Series) (h : Z)
    (d : GarchForecast) :
  forecast_garch fit returns h = Ok d ->
  not_negative (current_vol d)
  /\ not_negative (forecast_vol d)
  /\ (half_life d = PInf \/ exists q, half_life d = Num q /\ 0 <= q).
Proof.
  intros H.
  destruct (forecast_garch_steps _ _ _ _ H)
    as [res [c [cvol [fvol [hl [_ [_ [Hc [Hf [Hh ->]]]]]]]]]].
  cbn [current_vol forecast_vol half_life].
  split; [apply py_round_not_negative; now apply annualized_vol_result in Hc |].
  split; [apply py_round_not_negative; now apply annualized_vol_result in Hf |].
  destruct (half_life_result (fadd (alpha res) (beta res)))
    as [hl' [Hh' Hcase]].
  rewrite Hh in Hh'. injection Hh' as <-.
  destruct Hcase as [-> | [q [-> Hq]]]; [now left |].
  right. apply py_round_nonneg. lra.
Qed.

Lemma forecast_garch_result_not_negative_witness :
  not_negative
    (py_round (Num (sqrt (1 / 100 * 100 * (1 / 100 * 100))
                    / 100 * sqrt 252)) 4).
Proof.
  exact (proj1 (forecast_garch_result_not_negative _ _ _ _ sample_run)).
Defined.

End ForecastExtras.

Section MeanReversion.

Lemma round_half_even_bounds (x : R) :
  (Int_part x <= round_half_even x <= Int_part x + 1)%Z.
Proof.
  unfold round_half_even.
  destruct (Rltb _ _); [lia |].
  destruct (Rltb _ _); [lia |].
  destruct (Z.even _); lia.
Qed.

Lemma round_half_even_le (x y : R) :
  x <= y -> (round_half_even x <= round_half_even y)%Z.
Proof.
  intros Hxy.
  destruct (base_Int_part x) as [Hx1 Hx2].
  destruct (base_Int_part y) as [Hy1 Hy2].
  assert (Int_part x <= Int_part y)%Z as Hfg.
  { assert (Int_part x < Int_part y + 1)%Z; [| lia].
    apply lt_IZR. rewrite plus_IZR. lra. }
  destruct (Z.eq_dec (Int_part x) (Int_part y)) as [E | N].
  - unfold round_half_even. rewrite <- E. unfold Rltb.
    destruct (Rlt_dec (x - IZR (Int_part x)) (1 / 2));
      destruct (Rlt_dec (1 / 2) (x - IZR (Int_part x)));
      destruct (Rlt_dec (y - IZR (Int_part x)) (1 / 2));
      destruct (Rlt_dec (1 / 2) (y - IZR (Int_part x)));
      try lra; try lia; destruct (Z.even (Int_part x)); lia.
  - pose proof (round_half_even_bounds x).
    pose proof (round_half_even_bounds y). lia.
Qed.

Lemma annualized_le (u v : R) :
  0 <= u -> u <= v -> sqrt u / 100 * sqrt 252 <= sqrt v / 100 * sqrt 252.
Proof.
  intros Hu Huv. pose proof sqrt_252_pos.
  assert (sqrt u <= sqrt v) by (apply sqrt_le_1_alt; lra).
  nra.
Qed.

(** A run whose forecast is the current level. *)
Lemma forecast_at_current_level
    (fit : Series -> result ARCHModelResult) (returns : Series) (h : Z)
    (res : ARCHModelResult) (w a b c : R) :
  (100 <= len (dropna returns))%Z ->
  fit (scale (dropna returns) (Num 100)) = Ok res ->
  omega res = Num w -> alpha res = Num a -> beta res = Num b ->
  iloc_last (conditional_volatility res) = Ok (Num c) ->
  h = 0%Z \/ ((0 <= h)%Z /\ 1 <= a + b) ->
  exists d,
    forecast_garch fit returns h = Ok d /\ forecast_vol d = current_vol d.
Proof.
  intros Hlen Hfit Hw Ha Hb Hc Hcase.
  assert (0 <= h)%Z as Hh by (destruct Hcase as [-> | [? _]]; lia).
  eexists. split;
    [apply (forecast_garch_value fit returns h res w a b c); assumption |].
  cbn [forecast_vol current_vol].
  assert (spec_forecast_var w (a + b) (c * c) (Z.to_nat h) = c * c) as ->.
  { unfold spec_forecast_var, spec_long_run_var.
    destruct Hcase as [-> | [_ Hp]].
    - simpl. ring.
    - destruct (Rle_dec 1 (a + b)); [ring | contradiction]. }
  rewrite Rmax_left by nra. reflexivity.
Qed.

(** X13.  With horizon 0, or with a persistence of 1 or more and any
    horizon [h >= 0], the forecast is the current level: the returned
    [forecast_vol] equals the returned [current_vol]. *)
Theorem forecast_equals_current
    (fit : Series -> result ARCHModelResult) (returns : Series) (h : Z)
    (res : ARCHModelResult) (w a b c : R) :
  (100 <= len (dropna returns))%Z ->
  fit (scale (dropna returns) (Num 100)) = Ok res ->
  omega res = Num w -> alpha res = Num a -> beta res = Num b ->
  iloc_last (conditional_volatility res) = Ok (Num c) ->
  h = 0%Z \/ ((0 <= h)%Z /\ 1 <= a + b) ->
  exists d,
    forecast_garch fit returns h = Ok d /\ forecast_vol d = current_vol d.
Proof. apply forecast_at_current_level. Qed.

Lemma forecast_equals_current_witness :
  exists d,
    forecast_garch (constant_fit 1 (1 / 16) (1 / 16)) sample_returns 0 = Ok d
    /\ forecast_vol d = current_vol d.
Proof.
  apply (forecast_equals_current
           (constant_fit 1 (1 / 16) (1 / 16)) sample_returns 0
           {| omega := Num 1; alpha := Num (1 / 16); beta := Num (1 / 16);
              conditional_volatility :=
                scale (dropna sample_returns) (Num 100) |}
           1 (1 / 16) (1 / 16) (1 / 100 * 100)).
  - apply Z.leb_le. reflexivity.
  - reflexivity.
  - reflexivity.
  - reflexivity.
  - reflexivity.
  - reflexivity.
  - left. reflexivity.
Defined.

(** A run under mean reversion: both volatilities are non-negative
    numbers, ordered as the current and the long-run variance are. *)
Lemma forecast_between_levels
    (fit : Series -> result ARCHModelResult) (returns : Series) (h : Z)
    (res : ARCHModelResult) (w a b c : R) :
  (100 <= len (dropna returns))%Z ->
  (0 <= h)%Z ->
  fit (scale (dropna returns) (Num 100)) = Ok res ->
  omega res = Num w -> alpha res = Num a -> beta res = Num b ->
  iloc_last (conditional_volatility res) = Ok (Num c) ->
  0 <= a + b < 1 ->
  exists d qc qf,
    forecast_garch fit returns h = Ok d
    /\ current_vol d = Num qc /\ forecast_vol d = Num qf
    /\ 0 <= qc
    /\ (w / (1 - (a + b)) <= c * c -> qf <= qc)
    /\ (c * c <= w / (1 - (a + b)) -> qc <= qf).
Proof.
  intros Hlen Hh Hfit Hw Ha Hb Hc [Hp0 Hp1].
  rewrite (forecast_garch_value fit returns h res w a b c) by assumption.
  cbn [current_vol forecast_vol].
  set (p := a + b) in *. set (n := Z.to_nat h).
  set (lrv := w / (1 - p)).
  assert (spec_forecast_var w p (c * c) n = lrv + p ^ n * (c * c - lrv)) as ->.
  { unfold spec_forecast_var, spec_long_run_var.
    destruct (Rle_dec 1 p); [lra | reflexivity]. }
  assert (0 <= p ^ n) as Hpn by (now apply pow_le).
  assert (p ^ n <= 1) as Hpn1
    by (rewrite <- (pow1 n); apply pow_incr; lra).
  assert (0 <= c * c) as Hcc by nra.
  do 3 eexists. split; [reflexivity |].
  split; [reflexivity |]. split; [reflexivity |].
  assert (0 < 10 ^ 4) as H10 by (apply pow_lt; lra).
  split.
  { apply Rle_mult_inv_pos; [| exact H10].
    apply IZR_le, round_half_even_nonneg.
    pose proof (sqrt_pos (c * c)). pose proof sqrt_252_pos. nra. }
  split; intros Hcase.
  - apply Rmult_le_compat_r; [apply Rlt_le, Rinv_0_lt_compat, H10 |].
    apply IZR_le, round_half_even_le.
    apply Rmult_le_compat_r; [lra |].
    apply annualized_le; [apply Rmax_r |].
    apply Rmax_lub; nra.
  - apply Rmult_le_compat_r; [apply Rlt_le, Rinv_0_lt_compat, H10 |].
    apply IZR_le, round_half_even_le.
    apply Rmult_le_compat_r; [lra |].
    apply annualized_le; [exact Hcc |].
    eapply Rle_trans; [| apply Rmax_l]. nra.
Qed.

(** X14.  Mean reversion.  For a persistence in [[0, 1)] and a horizon
    [h >= 0], the forecast lies on the long-run side of the current level:
    when the current variance is at or above the long-run variance
    [omega / (1 - persistence)] the returned [forecast_vol] is at most the
    returned [current_vol], and when it is at or below, at least. *)
Theorem forecast_reverts_to_long_run
    (fit : Series -> result ARCHModelResult) (returns : Series) (h : Z)
    (res : ARCHModelResult) (w a b c : R) :
  (100 <= len (dropna returns))%Z ->
  (0 <= h)%Z ->
  fit (scale (dropna returns) (Num 100)) = Ok res ->
  omega res = Num w -> alpha res = Num a -> beta res = Num b ->
  iloc_last (conditional_volatility res) = Ok (Num c) ->
  0 <= a + b < 1 ->
  exists d qc qf,
    forecast_garch fit returns h = Ok d
    /\ current_vol d = Num qc /\ forecast_vol d = Num qf
    /\ (w / (1 - (a + b)) <= c * c -> qf <= qc)
    /\ (c * c <= w / (1 - (a + b)) -> qc <= qf).
Proof.
  intros Hlen Hh Hfit Hw Ha Hb Hc Hp.
  destruct (forecast_between_levels fit returns h res w a b c
              Hlen Hh Hfit Hw Ha Hb Hc Hp)
    as [d [qc [qf [H1 [H2 [H3 [_ [H4 H5]]]]]]]].
  exists d, qc, qf. repeat split; assumption.
Qed.

Lemma forecast_reverts_to_long_run_witness :
  exists d qc qf,
    forecast_garch (constant_fit 1 (1 / 16) (1 / 16)) sample_returns 5 = Ok d
    /\ current_vol d = Num qc /\ forecast_vol d = Num qf
    /\ (1 / (1 - (1 / 16 + 1 / 16)) <= 1 / 100 * 100 * (1 / 100 * 100)
        -> qf <= qc)
    /\ (1 / 100 * 100 * (1 / 100 * 100) <= 1 / (1 - (1 / 16 + 1 / 16))
        -> qc <= qf).
Proof.
  apply (forecast_reverts_to_long_run
           (constant_fit 1 (1 / 16) (1 / 16)) sample_returns 5
           {| omega := Num 1; alpha := Num (1 / 16); beta := Num (1 / 16);
              conditional_volatility :=
                scale (dropna sample_returns) (Num 100) |}
           1 (1 / 16) (1 / 16) (1 / 100 * 100)).
  - apply Z.leb_le. reflexivity.
  - lia.
  - reflexivity.
  - reflexivity.
  - reflexivity.
  - reflexivity.
  - reflexivity.
  - lra.
Defined.

(** X15.  The closed form is the GARCH recursion: for a persistence below
    1 the forecast variance at horizon 0 is the current variance, and the
    one at horizon [h + 1] is [omega + persistence * forecast_var(h)]. *)
Theorem forecast_var_recursion (w p cv : R) (h : Z) :
  p < 1 -> (0 <= h)%Z ->
  forecast_var_of (long_run_var_of (Num w) (Num p) (Num cv))
                  (Num p) (Num cv) 0
  = Num cv
  /\ forecast_var_of (long_run_var_of (Num w) (Num p) (Num cv))
                     (Num p) (Num cv) (h + 1)
     = fadd (Num w)
            (fmul (Num p)
                  (forecast_var_of (long_run_var_of (Num w) (Num p) (Num cv))
                                   (Num p) (Num cv) h)).
Proof.
  intros Hp Hh. rewrite long_run_var_num.
  rewrite !forecast_var_num by lia. cbn [fadd fmul].
  unfold spec_long_run_var. destruct (Rle_dec 1 p); [lra |].
  replace (Z.to_nat (h + 1)) with (S (Z.to_nat h)) by lia.
  split; f_equal; simpl; field; lra.
Qed.

Lemma forecast_var_recursion_witness :
  forecast_var_of (long_run_var_of (Num 1) (Num (1 / 2)) (Num 3))
                  (Num (1 / 2)) (Num 3) 0
  = Num 3
  /\ forecast_var_of (long_run_var_of (Num 1) (Num (1 / 2)) (Num 3))
                     (Num (1 / 2)) (Num 3) (4 + 1)
     = fadd (Num 1)
            (fmul (Num (1 / 2))
                  (forecast_var_of
                     (long_run_var_of (Num 1) (Num (1 / 2)) (Num 3))
                     (Num (1 / 2)) (Num 3) 4)).
Proof.
  apply (forecast_var_recursion 1 (1 / 2) 3 4); [lra | lia].
Defined.

(** X16.  The half-life is the number of steps after which the weight
    [persistence^h] of the current variance in the forecast is one half:
    for [0 < persistence < 1] the half-life [hl] computed by
    [forecast_garch] is positive and [persistence^hl = 1/2]. *)
Theorem half_life_halves (p : R) :
  0 < p < 1 ->
  exists hl,
    half_life_of (Num p) = Ok (Num hl) /\ 0 < hl /\ Rpower p hl = 1 / 2.
Proof.
  intros [H0 H1]. rewrite half_life_num. unfold half_life_value.
  destruct (Rlt_dec 0 p); [| contradiction].
  destruct (Rlt_dec p 1); [| contradiction].
  pose proof (ln_below_one p (conj H0 H1)) as Hl. pose proof ln_2_pos as H2.
  eexists. split; [reflexivity |]. split.
  - apply Rdiv_lt_0_compat; lra.
  - unfold Rpower.
    replace (ln 2 / - ln p * ln p) with (- ln 2) by (field; lra).
    rewrite exp_Ropp, exp_ln by lra. lra.
Qed.

Lemma half_life_halves_witness :
  exists hl,
    half_life_of (Num (1 / 8)) = Ok (Num hl)
    /\ 0 < hl /\ Rpower (1 / 8) hl = 1 / 2.
Proof.
  apply (half_life_halves (1 / 8)). lra.
Defined.

End MeanReversion.

(** * The rolling historical volatility of [iv_tracker] *)

Section HvSeries.

Lemma log_ratio_cons (x : float64) (rest : Series) :
  Series.log (div (x :: rest) (shift1 (x :: rest)))
  = NaN :: Series.log (binop fdiv rest (removelast (x :: rest))).
Proof.
  unfold Series.log, div.
  change (shift1 (x :: rest)) with (NaN :: removelast (x :: rest)).
  change (binop fdiv (x :: rest) (NaN :: removelast (x :: rest)))
    with (fdiv x NaN :: binop fdiv rest (removelast (x :: rest))).
  now rewrite fdiv_nan_r.
Qed.

Lemma log_ratio_nums (p0 : R) (rest : list R) :
  Forall (fun r => 0 < r) (p0 :: rest) ->
  Series.log (div (map Num (p0 :: rest)) (shift1 (map Num (p0 :: rest))))
  = NaN :: map Num (adjacent_log_returns (p0 :: rest)).
Proof.
  intros Hp.
  change (map Num (p0 :: rest)) with (Num p0 :: map Num rest).
  rewrite log_ratio_cons. f_equal.
  change (Num p0 :: map Num rest) with (map Num (p0 :: rest)).
  rewrite removelast_map.
  rewrite binop_map2 by (rewrite length_removelast; simpl; lia).
  rewrite combine_removelast by reflexivity.
  unfold Series.log, adjacent_log_returns.
  change (tl (p0 :: rest)) with rest. rewrite !map_map.
  apply map_ext_in. intros [b a] Hin.
  assert (0 < b) as Hb.
  { apply in_combine_l in Hin. inversion Hp as [|? ? _ Hrest]; subst.
    revert b Hin. now apply Forall_forall. }
  assert (0 < a) as Ha.
  { apply in_combine_r in Hin. revert a Hin. now apply Forall_forall. }
  rewrite fdiv_num by lra. apply np_log_pos. now apply Rdiv_lt_0_compat.
Qed.

Lemma lastn_short {A : Type} (w : nat) (l : list A) :
  (List.length l <= w)%nat -> lastn w l = l.
Proof.
  intros H. unfold lastn.
  now replace (List.length l - w)%nat with 0%nat by lia.
Qed.

(** An entry whose window reaches back to a leading [NaN] is [NaN]. *)
Lemma rolling_std_at_head_nan (w i : nat) (values : Series) :
  (i < w)%nat -> rolling_std_at w (NaN :: values) i = NaN.
Proof.
  intros H. unfold rolling_std_at, rolling_window.
  rewrite lastn_short by (rewrite length_firstn; lia).
  change (firstn (S i) (NaN :: values)) with (NaN :: firstn i values).
  change (dropna (NaN :: firstn i values)) with (dropna (firstn i values)).
  replace (List.length (dropna (firstn i values)) <? w)%nat with true;
    [reflexivity |].
  symmetry. apply Nat.ltb_lt.
  pose proof (length_dropna_le (firstn i values)) as Hd.
  rewrite length_firstn in Hd. lia.
Qed.

Lemma hv_series_unfold (prices : Series) (w : Z) :
  (0 <= w)%Z ->
  _hv_series prices w
  = Ok (map (fun i =>
               fmul (rolling_std_at
                       (Z.to_nat w)
                       (map inf_to_nan
                            (Series.log (div prices (shift1 prices)))) i)
                    sqrt_trading_days)
            (seq 0 (List.length prices))).
Proof.
  intros H. unfold _hv_series, rolling_std. decide_guard. cbn [bind].
  assert (List.length (Series.log (div prices (shift1 prices)))
          = List.length prices) as ->.
  { unfold Series.log, div. rewrite length_map, length_binop.
    destruct prices as [|x rest]; [reflexivity |].
    change (shift1 (x :: rest)) with (NaN :: removelast (x :: rest)).
    cbn [List.length]. rewrite length_removelast. cbn [List.length]. lia. }
  unfold scale. now rewrite map_map.
Qed.

Lemma length_dropna_cons (x : float64) (l : Series) :
  (List.length (dropna (x :: l)) <= S (List.length (dropna l)))%nat.
Proof.
  unfold dropna. simpl. destruct (negb (is_nan x)); simpl; lia.
Qed.

Lemma dropna_leading_nan (g : nat -> float64) (w a n : nat) :
  (forall i, (i < w)%nat -> g i = NaN) ->
  (List.length (dropna (map g (seq a n))) + Nat.min (w - a) n <= n)%nat.
Proof.
  intros Hg. revert a. induction n as [|n IH]; intros a; [simpl; lia |].
  change (seq a (S n)) with (a :: seq (S a) n).
  change (map g (a :: seq (S a) n)) with (g a :: map g (seq (S a) n)).
  specialize (IH (S a)).
  destruct (Nat.lt_ge_cases a w) as [Hlt | Hge].
  - rewrite (Hg a Hlt).
    change (dropna (NaN :: ?l)) with (dropna l).
    change (dropna (NaN :: map g (seq (S a) n)))
      with (dropna (map g (seq (S a) n))).
    lia.
  - pose proof (length_dropna_cons (g a) (map g (seq (S a) n))) as Hd.
    replace (w - a)%nat with 0%nat by lia.
    replace (w - S a)%nat with 0%nat in IH by lia.
    cbn [Nat.min] in *. lia.
Qed.

(** The first [window] entries of the historical volatility series are
    [NaN]: the first log return is, and each of their windows holds it or
    is too short. *)
Lemma hv_series_leading_nan (prices hv : Series) (w : Z) (i : nat) :
  (0 <= w)%Z -> _hv_series prices w = Ok hv ->
  (i < Z.to_nat w)%nat -> nth i hv NaN = NaN.
Proof.
  intros Hw H Hi. rewrite hv_series_unfold in H by exact Hw.
  injection H as <-.
  destruct (Nat.lt_ge_cases i (List.length prices)) as [Hlt | Hge].
  - rewrite (nth_indep _ NaN
               (fmul (rolling_std_at (Z.to_nat w)
                        (map inf_to_nan
                           (Series.log (div prices (shift1 prices)))) 0)
                     sqrt_trading_days))
      by (rewrite length_map, length_seq; exact Hlt).
    rewrite (map_nth (fun i => fmul (rolling_std_at _ _ i) _)).
    rewrite seq_nth by exact Hlt. simpl Nat.add.
    destruct prices as [|x rest]; [simpl in Hlt; lia |].
    rewrite log_ratio_cons.
    change (map inf_to_nan (NaN :: ?l)) with (NaN :: map inf_to_nan l).
    change (map inf_to_nan
              (NaN :: Series.log (binop fdiv rest (removelast (x :: rest)))))
      with (NaN :: map inf_to_nan
                     (Series.log (binop fdiv rest (removelast (x :: rest))))).
    now rewrite rolling_std_at_head_nan by exact Hi.
  - apply nth_overflow. now rewrite length_map, length_seq.
Qed.

Lemma dropna_scale_count (g : nat -> float64) (c : float64) (l : list nat) :
  (List.length (dropna (map (fun i => fmul (g i) c) l))
   <= List.length (dropna (map g l)))%nat.
Proof.
  induction l as [|i l IH]; [simpl; lia |].
  change (map (fun i => fmul (g i) c) (i :: l))
    with (fmul (g i) c :: map (fun i => fmul (g i) c) l).
  change (map g (i :: l)) with (g i :: map g l).
  pose proof (length_dropna_cons (fmul (g i) c)
                (map (fun i => fmul (g i) c) l)) as Hc.
  destruct (g i) as [r | | |];
    try (change (dropna (?x :: map g l)) with (x :: dropna (map g l));
         cbn [List.length]; lia).
  exact IH.
Qed.

Lemma hv_series_count (prices hv : Series) (w : Z) :
  (1 <= w)%Z -> _hv_series prices w = Ok hv ->
  List.length hv = List.length prices
  /\ (List.length (dropna hv) + Z.to_nat w <= Nat.max (List.length prices)
                                                    (Z.to_nat w))%nat.
Proof.
  intros Hw H. rewrite hv_series_unfold in H by lia. injection H as <-.
  split; [now rewrite length_map, length_seq |].
  etransitivity;
    [apply Nat.add_le_mono_r, dropna_scale_count |].
  destruct prices as [|x rest]; [simpl; lia |].
  rewrite log_ratio_cons.
  change (map inf_to_nan
            (NaN :: Series.log (binop fdiv rest (removelast (x :: rest)))))
    with (NaN :: map inf_to_nan
                   (Series.log (binop fdiv rest (removelast (x :: rest))))).
  pose proof (dropna_leading_nan
                (rolling_std_at (Z.to_nat w)
                   (NaN :: map inf_to_nan
                      (Series.log (binop fdiv rest (removelast (x :: rest))))))
                (Z.to_nat w) 0 (List.length (x :: rest))
                (fun i Hi => rolling_std_at_head_nan _ i _ Hi)) as Hd.
  lia.
Qed.

Lemma var_dropna (s : Series) : var (dropna s) = var s.
Proof. unfold var. now rewrite dropna_idempotent. Qed.

Lemma std_finite_or_nan (s : Series) :
  Forall finite_or_nan s -> finite_or_nan (std s).
Proof.
  intros H. unfold std. rewrite <- var_dropna.
  destruct (finite_series _ (dropna_finite _ H)) as [xs ->].
  destruct (Nat.le_gt_cases 2 (List.length xs)) as [H2 | H1].
  - rewrite var_nums by exact H2.
    rewrite np_sqrt_nonneg by (now apply sample_var_nonneg). exact I.
  - unfold var. rewrite dropna_nums, length_map.
    replace (List.length xs <=? 1)%nat with true
      by (symmetry; apply Nat.leb_le; lia).
    exact I.
Qed.

Lemma inf_to_nan_finite_or_nan (s : Series) :
  Forall finite_or_nan (map inf_to_nan s).
Proof. apply Forall_map, Forall_forall. intros x _. now destruct x. Qed.

Lemma Forall_firstn {A : Type} (P : A -> Prop) (k : nat) (l : list A) :
  Forall P l -> Forall P (firstn k l).
Proof.
  revert l. induction k as [|k IH]; intros l H; [constructor |].
  destruct l as [|x l]; [constructor |].
  inversion H; subst. simpl. constructor; [assumption | now apply IH].
Qed.

Lemma rolling_std_at_finite_or_nan (w i : nat) (values : Series) :
  Forall finite_or_nan values -> finite_or_nan (rolling_std_at w values i).
Proof.
  intros H. unfold rolling_std_at, rolling_window.
  destruct (_ <? w)%nat; [exact I |].
  apply std_finite_or_nan, Forall_lastn, Forall_firstn, H.
Qed.

(** Every entry of the historical volatility series is a number or
    [NaN]. *)
Lemma hv_series_finite (prices hv : Series) (w : Z) :
  _hv_series prices w = Ok hv -> Forall finite (dropna hv).
Proof.
  intros H. apply dropna_finite.
  destruct (Z.lt_ge_cases w 0) as [Hneg | Hw].
  - unfold _hv_series, rolling_std in H.
    replace (w <? 0)%Z with true in H by (symmetry; now apply Z.ltb_lt).
    discriminate.
  - rewrite hv_series_unfold in H by lia. injection H as <-.
    apply Forall_map, Forall_forall. intros i _.
    pose proof (rolling_std_at_finite_or_nan (Z.to_nat w) i _
                  (inf_to_nan_finite_or_nan
                     (Series.log (div prices (shift1 prices))))) as Hf.
    unfold sqrt_trading_days.
    destruct (rolling_std_at _ _ i); simpl in *; try contradiction; exact I.
Qed.

Lemma hv_series_returns (prices : Series) (w : Z) :
  (0 <= w)%Z -> exists hv, _hv_series prices w = Ok hv.
Proof. intros H. rewrite hv_series_unfold by exact H. eauto. Qed.

Lemma lastn_cons {A : Type} (w : nat) (x : A) (l : list A) :
  (w <= List.length l)%nat -> lastn w (x :: l) = lastn w l.
Proof.
  intros H. unfold lastn. simpl List.length.
  now replace (S (List.length l) - w)%nat with (S (List.length l - w)) by lia.
Qed.

End HvSeries.

Section HvSeriesExtras.

(** X17.  For a window [w >= 1] the historical volatility series has one
    entry per price, its first [w] entries are [NaN], and so it has at
    most [len(prices) - w] values. *)
Theorem hv_series_shape (prices : Series) (w : Z) :
  (1 <= w)%Z ->
  exists hv,
    _hv_series prices w = Ok hv
    /\ List.length hv = List.length prices
    /\ (forall i, (i < Z.to_nat w)%nat -> nth i hv NaN = NaN)
    /\ (List.length (dropna hv) <= List.length prices - Z.to_nat w)%nat.
Proof.
  intros Hw. destruct (hv_series_returns prices w) as [hv H]; [lia |].
  exists hv. split; [exact H |].
  destruct (hv_series_count _ _ _ Hw H) as [Hl Hc].
  split; [exact Hl |]. split.
  - intros i Hi. apply (hv_series_leading_nan prices hv w); [lia | exact H | exact Hi].
  - lia.
Qed.

Lemma hv_series_shape_witness :
  exists hv,
    _hv_series [Num 1; Num 2; Num 4] 2 = Ok hv
    /\ List.length hv = List.length [Num 1; Num 2; Num 4]
    /\ (forall i, (i < Z.to_nat 2)%nat -> nth i hv NaN = NaN)
    /\ (List.length (dropna hv)
        <= List.length [Num 1; Num 2; Num 4] - Z.to_nat 2)%nat.
Proof.
  apply (hv_series_shape [Num 1; Num 2; Num 4] 2). lia.
Defined.

End HvSeriesExtras.

(** * The IV percentile of [iv_tracker] *)

Section IvPercentileFacts.

Import IvTracker.

Lemma round_half_even_IZR (z : Z) : round_half_even (IZR z) = z.
Proof. apply round_half_even_down. lra. Qed.

Lemma py_round_between (zl zh : Z) (x : R) (n : nat) :
  IZR zl <= x <= IZR zh ->
  exists q, py_round (Num x) n = Num q /\ IZR zl <= q <= IZR zh.
Proof.
  intros [Hl Hh]. eexists. split; [reflexivity |].
  assert (0 < 10 ^ n) as Hp by (apply pow_lt; lra).
  assert (10 ^ n = IZR (10 ^ Z.of_nat n)) as E by apply pow_IZR.
  assert (IZR (zl * 10 ^ Z.of_nat n) <= IZR (round_half_even (x * 10 ^ n)))
    as H1.
  { apply IZR_le. rewrite <- (round_half_even_IZR (zl * 10 ^ Z.of_nat n)).
    apply round_half_even_le. rewrite mult_IZR, <- E. nra. }
  assert (IZR (round_half_even (x * 10 ^ n)) <= IZR (zh * 10 ^ Z.of_nat n))
    as H2.
  { apply IZR_le. rewrite <- (round_half_even_IZR (zh * 10 ^ Z.of_nat n)).
    apply round_half_even_le. rewrite mult_IZR, <- E. nra. }
  rewrite mult_IZR, <- E in H1, H2.
  split.
  - apply (Rmult_le_reg_r (10 ^ n)); [exact Hp |].
    unfold Rdiv. rewrite Rmult_assoc, Rinv_l by lra. lra.
  - apply (Rmult_le_reg_r (10 ^ n)); [exact Hp |].
    unfold Rdiv. rewrite Rmult_assoc, Rinv_l by lra. lra.
Qed.

Lemma fmaximum_nums (a b : R) : fmaximum (Num a) (Num b) = Num (Rmax a b).
Proof.
  unfold fmaximum, Rmax. cbn [is_nan orb flt].
  destruct (Rle_dec a b) as [H | H].
  - destruct (Rlt_dec a b) as [Hlt | Hge].
    + now rewrite Rltb_true.
    + rewrite Rltb_false by lra. f_equal. lra.
  - now rewrite Rltb_false by lra.
Qed.

Lemma fminimum_nums (a b : R) : fminimum (Num a) (Num b) = Num (Rmin a b).
Proof.
  unfold fminimum, Rmin. cbn [is_nan orb flt].
  destruct (Rle_dec a b) as [H | H].
  - now rewrite Rltb_false by lra.
  - now rewrite Rltb_true by lra.
Qed.

Lemma np_max_nums (x : R) (xs : list R) :
  np_max (map Num (x :: xs)) = Ok (Num (fold_left Rmax xs x)).
Proof.
  cbn [map np_max]. f_equal. revert x.
  induction xs as [|y ys IH]; intros x; [reflexivity |].
  cbn [map fold_left]. rewrite fmaximum_nums. apply IH.
Qed.

Lemma np_min_nums (x : R) (xs : list R) :
  np_min (map Num (x :: xs)) = Ok (Num (fold_left Rmin xs x)).
Proof.
  cbn [map np_min]. f_equal. revert x.
  induction xs as [|y ys IH]; intros x; [reflexivity |].
  cbn [map fold_left]. rewrite fminimum_nums. apply IH.
Qed.

Lemma fold_left_Rmax_ge (xs : list R) (x : R) :
  x <= fold_left Rmax xs x /\ forall r, In r xs -> r <= fold_left Rmax xs x.
Proof.
  revert x. induction xs as [|y ys IH]; intros x.
  - split; [simpl; lra | intros r []].
  - cbn [fold_left]. destruct (IH (Rmax x y)) as [H1 H2].
    pose proof (Rmax_l x y). pose proof (Rmax_r x y).
    split; [lra |]. intros r [<- | Hr]; [lra | now apply H2].
Qed.

Lemma fold_left_Rmin_le (xs : list R) (x : R) :
  fold_left Rmin xs x <= x /\ forall r, In r xs -> fold_left Rmin xs x <= r.
Proof.
  revert x. induction xs as [|y ys IH]; intros x.
  - split; [simpl; lra | intros r []].
  - cbn [fold_left]. destruct (IH (Rmin x y)) as [H1 H2].
    pose proof (Rmin_l x y). pose proof (Rmin_r x y).
    split; [lra |]. intros r [<- | Hr]; [lra | now apply H2].
Qed.

Lemma count_le_length (values : Series) (x : float64) :
  (count_le values x <= List.length values)%nat.
Proof. apply filter_length_le. Qed.

(** The percentage of [c] out of [n > 0]. *)
Lemma percentage_num (c n : nat) :
  (0 < n)%nat ->
  fmul (fdiv (Num (INR c)) (Num (INR n))) (Num 100)
  = Num (INR c / INR n * 100).
Proof.
  intros H. rewrite fdiv_num; [reflexivity |].
  apply not_0_INR. lia.
Qed.

Lemma percentage_bounds (c n : nat) :
  (0 < n)%nat -> (c <= n)%nat -> 0 <= INR c / INR n * 100 <= 100.
Proof.
  intros Hn Hc. apply lt_INR in Hn. apply le_INR in Hc. simpl in Hn.
  pose proof (pos_INR c) as H0.
  assert (0 <= INR c / INR n) as Hq by (now apply Rle_mult_inv_pos).
  assert (INR c / INR n <= 1) as Hq1.
  { apply (Rmult_le_reg_r (INR n)); [exact Hn |].
    unfold Rdiv. rewrite Rmult_assoc, Rinv_l by lra. lra. }
  lra.
Qed.

(** Every step of a successful run of [get_iv_percentile]. *)
Lemma get_iv_percentile_steps
    (t : string) (close : Series) (atm_iv : option float64)
    (r : IvPercentile) :
  get_iv_percentile t close atm_iv = Ok r ->
  exists hv_all civ hi lo rank,
    _hv_series close 20 = Ok hv_all
    /\ (20 <= len (dropna hv_all))%Z
    /\ match atm_iv with
       | Some iv => Ok iv
       | None => iloc_last (dropna hv_all)
       end = Ok civ
    /\ np_max (dropna hv_all) = Ok hi
    /\ np_min (dropna hv_all) = Ok lo
    /\ (if flt (Num 0) (fsub hi lo) then
          q <- py_truediv (fsub civ lo) (fsub hi lo) ;;
          Ok (fmul q (Num 100))
        else Ok (Num 50)) = Ok rank
    /\ r = {| ticker := t;
              current_iv := py_round civ 4;
              iv_percentile :=
                py_round
                  (fmul (fdiv (Num (INR (count_le (dropna hv_all) civ)))
                              (Num (INR (List.length (dropna hv_all)))))
                        (Num 100)) 1;
              iv_rank := py_round rank 1;
              high_iv := py_round hi 4;
              low_iv := py_round lo 4;
              signal :=
                if fge (fmul (fdiv (Num (INR (count_le (dropna hv_all) civ)))
                                   (Num (INR (List.length (dropna hv_all)))))
                             (Num 100)) (Num 75)
                then "SELL"%string
                else if fle (fmul (fdiv (Num (INR (count_le (dropna hv_all)
                                                            civ)))
                                        (Num (INR (List.length
                                                     (dropna hv_all)))))
                                  (Num 100)) (Num 25)
                then "WAIT"%string else "NEUTRAL"%string |}.
Proof.
  unfold get_iv_percentile. intros H.
  destruct (_hv_series close 20) as [hv_all | e] eqn:Ehv; [| discriminate].
  cbn [bind] in H.
  destruct (len (dropna hv_all) <? 20)%Z eqn:Eg; [discriminate |].
  apply Z.ltb_ge in Eg.
  destruct (match atm_iv with
            | Some iv => Ok iv
            | None => iloc_last (dropna hv_all)
            end) as [civ | e] eqn:Eciv; [| discriminate].
  cbn [bind] in H.
  destruct (np_max (dropna hv_all)) as [hi | e] eqn:Ehi; [| discriminate].
  cbn [bind] in H.
  destruct (np_min (dropna hv_all)) as [lo | e] eqn:Elo; [| discriminate].
  cbn [bind] in H.
  match type of H with
  | bind ?m _ = _ => destruct m as [rank | e] eqn:Erank; [| discriminate]
  end.
  cbn [bind] in H. injection H as <-.
  exists hv_all, civ, hi, lo, rank. repeat split; assumption || reflexivity.
Qed.

Lemma iloc_last_in (s : Series) (x : float64) :
  iloc_last s = Ok x -> In x s.
Proof.
  destruct s as [|y ys]; [discriminate |].
  unfold iloc_last. intros H. injection H as <-.
  revert y. induction ys as [|z zs IH]; intros y; [now left |].
  right. apply IH.
Qed.

Lemma py_round_mono (x y : R) (n : nat) (qx qy : R) :
  x <= y ->
  py_round (Num x) n = Num qx -> py_round (Num y) n = Num qy -> qx <= qy.
Proof.
  intros H Ex Ey. cbn [py_round] in Ex, Ey.
  injection Ex as <-. injection Ey as <-.
  assert (0 < 10 ^ n) as Hp by (apply pow_lt; lra).
  apply Rmult_le_compat_r; [apply Rlt_le, Rinv_0_lt_compat, Hp |].
  apply IZR_le, round_half_even_le. nra.
Qed.

Lemma percentage_ge_75 (c n : nat) :
  (0 < n)%nat ->
  75 <= INR c / INR n * 100 <-> (3 * n <= 4 * c)%nat.
Proof.
  intros Hn. pose proof (lt_INR _ _ Hn) as Hn'. simpl in Hn'.
  assert (INR c / INR n * INR n = INR c) as E
    by (unfold Rdiv; rewrite Rmult_assoc, Rinv_l by lra; lra).
  split.
  - intros H. apply INR_le. rewrite !mult_INR. simpl. nra.
  - intros H. apply le_INR in H. rewrite !mult_INR in H. simpl in H. nra.
Qed.

Lemma percentage_le_25 (c n : nat) :
  (0 < n)%nat ->
  INR c / INR n * 100 <= 25 <-> (4 * c <= n)%nat.
Proof.
  intros Hn. pose proof (lt_INR _ _ Hn) as Hn'. simpl in Hn'.
  assert (INR c / INR n * INR n = INR c) as E
    by (unfold Rdiv; rewrite Rmult_assoc, Rinv_l by lra; lra).
  split.
  - intros H. apply INR_le. rewrite !mult_INR. simpl. nra.
  - intros H. apply le_INR in H. rewrite !mult_INR in H. simpl in H. nra.
Qed.

End IvPercentileFacts.

Section HvSeriesValues.

Lemma firstn_map {A B : Type} (f : A -> B) (k : nat) (l : list A) :
  firstn k (map f l) = map f (firstn k l).
Proof.
  revert l. induction k as [|k IH]; intros [|x l]; simpl; try reflexivity.
  now rewrite IH.
Qed.

(** Past the first [w] positions, every entry of the rolling standard
    deviation of finite returns is a number. *)
Lemma rolling_std_at_nums (w i : nat) (adj : list R) :
  (2 <= w)%nat -> (w <= i)%nat -> (i <= List.length adj)%nat ->
  rolling_std_at w (NaN :: map Num adj) i
  = Num (sqrt (sample_var (lastn w (firstn i adj)))).
Proof.
  intros H2 Hwi Hi. unfold rolling_std_at, rolling_window.
  change (firstn (S i) (NaN :: map Num adj))
    with (NaN :: firstn i (map Num adj)).
  rewrite firstn_map.
  rewrite lastn_cons by (rewrite length_map, length_firstn; lia).
  rewrite lastn_map, dropna_nums, length_map.
  assert (List.length (lastn w (firstn i adj)) = w) as L
    by (apply lastn_length; rewrite length_firstn; lia).
  rewrite L, Nat.ltb_irrefl. apply std_nums. lia.
Qed.

Lemma dropna_count_from (g : nat -> float64) (w a n : nat) :
  (forall i, (w <= i)%nat -> (i < a + n)%nat -> is_nan (g i) = false) ->
  (n <= List.length (dropna (map g (seq a n))) + (w - a))%nat.
Proof.
  revert a. induction n as [|n IH]; intros a Hg; [simpl; lia |].
  change (seq a (S n)) with (a :: seq (S a) n).
  change (map g (a :: seq (S a) n)) with (g a :: map g (seq (S a) n)).
  assert (forall i, (w <= i)%nat -> (i < S a + n)%nat -> is_nan (g i) = false)
    as Hg' by (intros i H1 H2; apply Hg; lia).
  specialize (IH (S a) Hg').
  destruct (Nat.lt_ge_cases a w) as [Hlt | Hge].
  - pose proof (length_dropna_le (map g (seq (S a) n))).
    assert (List.length (dropna (map g (seq (S a) n)))
            <= List.length (dropna (g a :: map g (seq (S a) n))))%nat.
    { unfold dropna. simpl. destruct (negb (is_nan (g a))); simpl; lia. }
    lia.
  - assert (is_nan (g a) = false) as E by (apply Hg; lia).
    unfold dropna in *. simpl. rewrite E. simpl. lia.
Qed.

(** On positive prices without gaps the historical volatility series has
    a value at every position from [w] on. *)
Lemma hv_series_values (ps : list R) (w : Z) :
  Forall (fun r => 0 < r) ps -> (2 <= w)%Z ->
  exists hv,
    _hv_series (map Num ps) w = Ok hv
    /\ (List.length ps <= List.length (dropna hv) + Z.to_nat w)%nat.
Proof.
  intros Hp Hw. rewrite hv_series_unfold by lia.
  eexists. split; [reflexivity |].
  destruct ps as [|p0 rest]; [simpl; lia |].
  rewrite log_ratio_nums by exact Hp.
  set (adj := adjacent_log_returns (p0 :: rest)).
  assert (List.length adj = List.length rest) as Ladj
    by (unfold adj; rewrite length_adjacent_log_returns; simpl; lia).
  assert (map inf_to_nan (NaN :: map Num adj) = NaN :: map Num adj) as ->.
  { simpl. f_equal. rewrite map_map. reflexivity. }
  rewrite length_map.
  pose proof (dropna_count_from
                (fun i => fmul (rolling_std_at (Z.to_nat w)
                                  (NaN :: map Num adj) i) sqrt_trading_days)
                (Z.to_nat w) 0 (List.length (p0 :: rest))) as Hd.
  rewrite Nat.sub_0_r in Hd. apply Hd.
  intros i Hwi Hi. cbn [List.length] in Hi.
  rewrite rolling_std_at_nums by lia. reflexivity.
Qed.

End HvSeriesValues.

Section IvPercentileSuccess.

Import IvTracker.

Lemma iloc_last_nonempty (s : Series) :
  s <> [] -> exists x, iloc_last s = Ok x.
Proof. destruct s; [congruence | intros _; simpl; eauto]. Qed.

Lemma Rltb_inv (x y : R) : Rltb x y = true -> x < y.
Proof. unfold Rltb. destruct (Rlt_dec x y); [trivial | discriminate]. Qed.

Lemma py_truediv_positive (x y : float64) :
  flt (Num 0) y = true -> exists q, py_truediv x y = Ok q.
Proof.
  unfold py_truediv. destruct y as [b | | |]; cbn [flt]; intros H; eauto.
  apply Rltb_inv in H. rewrite Reqb_false by lra. eauto.
Qed.

(** [get_iv_percentile] returns a result as soon as the history holds 20
    values. *)
Lemma get_iv_percentile_returns
    (t : string) (close hv_all : Series) (atm_iv : option float64) :
  _hv_series close 20 = Ok hv_all ->
  (20 <= len (dropna hv_all))%Z ->
  exists r, get_iv_percentile t close atm_iv = Ok r.
Proof.
  intros H Hlen. unfold get_iv_percentile. rewrite H. cbn [bind].
  decide_guard.
  assert (dropna hv_all <> []) as Hne
    by (intros E; rewrite E in Hlen; unfold len in Hlen; simpl in Hlen; lia).
  assert (exists civ, match atm_iv with
                      | Some iv => Ok iv
                      | None => iloc_last (dropna hv_all)
                      end = Ok civ) as [civ ->].
  { destruct atm_iv; [eauto | now apply iloc_last_nonempty]. }
  cbn [bind].
  destruct (dropna hv_all) as [|x xs] eqn:E; [congruence |].
  cbn [np_max np_min bind].
  destruct (flt (Num 0) (fsub (fold_left fmaximum xs x)
                              (fold_left fminimum xs x))) eqn:Eg.
  - destruct (py_truediv_positive
                (fsub civ (fold_left fminimum xs x)) _ Eg) as [q ->].
    cbn [bind]. eauto.
  - cbn [bind]. eauto.
Qed.

Lemma repeat_positive (x : R) (n : nat) :
  0 < x -> Forall (fun r => 0 < r) (repeat x n).
Proof.
  intros H. apply Forall_forall. intros r Hr.
  apply repeat_spec in Hr. now subst.
Qed.

End IvPercentileSuccess.

Section IvPercentileExtras.

Import IvTracker.

(** X19.  Whatever the prices and the implied volatility are, the
    [iv_percentile] that [get_iv_percentile] returns is a number between 0
    and 100. *)
Theorem iv_percentile_in_range
    (t : string) (close : Series) (atm_iv : option float64)
    (r : IvPercentile) :
  get_iv_percentile t close atm_iv = Ok r ->
  exists q, iv_percentile r = Num q /\ 0 <= q <= 100.
Proof.
  intros H.
  destruct (get_iv_percentile_steps _ _ _ _ H)
    as [hv_all [civ [hi [lo [rank [_ [Hlen [_ [_ [_ [_ ->]]]]]]]]]]].
  cbn [iv_percentile].
  assert (0 < List.length (dropna hv_all))%nat as Hn
    by (unfold len in Hlen; lia).
  rewrite percentage_num by exact Hn.
  apply (py_round_between 0 100).
  apply percentage_bounds; [exact Hn | apply count_le_length].
Qed.

(** X20.  Without an implied volatility from the options chain the
    current value is the last historical one, so the returned
    [current_iv] lies between the returned [low_iv] and [high_iv], and the
    returned [iv_rank] between 0 and 100. *)
Theorem iv_fallback_within_history
    (t : string) (close : Series) (r : IvPercentile) :
  get_iv_percentile t close None = Ok r ->
  exists lo c hi k,
    low_iv r = Num lo /\ current_iv r = Num c /\ high_iv r = Num hi
    /\ iv_rank r = Num k
    /\ lo <= c <= hi /\ 0 <= k <= 100.
Proof.
  intros H.
  destruct (get_iv_percentile_steps _ _ _ _ H)
    as [hv_all [civ [hi [lo [rank [Hhv [Hlen [Hciv [Hhi [Hlo [Hrank ->]]]]]]]]]]].
  cbn [low_iv current_iv high_iv iv_rank].
  destruct (finite_series _ (hv_series_finite _ _ _ Hhv)) as [hs Ehs].
  rewrite Ehs in *.
  destruct hs as [|h0 hs]; [unfold len in Hlen; simpl in Hlen; lia |].
  rewrite np_max_nums in Hhi. injection Hhi as <-.
  rewrite np_min_nums in Hlo. injection Hlo as <-.
  apply iloc_last_in in Hciv. apply in_map_iff in Hciv.
  destruct Hciv as [c [<- Hc]].
  destruct (fold_left_Rmax_ge hs h0) as [M0 M1].
  destruct (fold_left_Rmin_le hs h0) as [m0 m1].
  set (M := fold_left Rmax hs h0) in *. set (m := fold_left Rmin hs h0) in *.
  assert (m <= c <= M) as Hcm.
  { destruct Hc as [<- | Hc]; [lra |].
    split; [now apply m1 | now apply M1]. }
  assert (exists k0, rank = Num k0 /\ 0 <= k0 <= 100) as [k0 [-> Hk0]].
  { cbn [fsub fneg fadd flt] in Hrank.
    destruct (Rlt_dec 0 (M + - m)) as [Hpos | Hnpos].
    - rewrite Rltb_true in Hrank by exact Hpos.
      unfold py_truediv in Hrank.
      rewrite Reqb_false, fdiv_num in Hrank by lra.
      cbn [bind fmul] in Hrank. injection Hrank as <-.
      eexists. split; [reflexivity |].
      assert (0 <= (c + - m) / (M + - m)) as Hq
        by (apply Rle_mult_inv_pos; lra).
      assert ((c + - m) / (M + - m) <= 1) as Hq1.
      { apply (Rmult_le_reg_r (M + - m)); [exact Hpos |].
        unfold Rdiv. rewrite Rmult_assoc, Rinv_l by lra. lra. }
      lra.
    - rewrite Rltb_false in Hrank by lra. injection Hrank as <-.
      exists 50. split; [reflexivity | lra]. }
  destruct (py_round_between 0 100 k0 1 Hk0) as [k [Ek Hk]].
  do 4 eexists.
  split; [reflexivity |]. split; [reflexivity |]. split; [reflexivity |].
  split; [exact Ek |]. split; [| exact Hk].
  split.
  - apply (py_round_mono m c 4); [lra | reflexivity | reflexivity].
  - apply (py_round_mono c M 4); [lra | reflexivity | reflexivity].
Qed.

(** X21.  A history of fewer than 40 closes is refused: the 20-day rolling
    volatility needs 20 returns for its first value and 20 values are
    required, so [get_iv_percentile] raises "Insufficient data for
    <ticker>", with or without an implied volatility. *)
Theorem iv_percentile_needs_40_closes
    (t : string) (close : Series) (atm_iv : option float64) :
  (len close < 40)%Z ->
  get_iv_percentile t close atm_iv
  = Raise (ValueError ("Insufficient data for " ++ t)%string).
Proof.
  intros Hlen. unfold get_iv_percentile.
  destruct (hv_series_returns close 20) as [hv H]; [lia |].
  rewrite H. cbn [bind].
  destruct (hv_series_count close hv 20) as [_ Hc]; [lia | exact H |].
  unfold len in *.
  replace (Z.of_nat (List.length (dropna hv)) <? 20)%Z with true;
    [reflexivity |].
  symmetry. apply Z.ltb_lt. lia.
Qed.

Lemma iv_percentile_needs_40_closes_witness :
  IvTracker.get_iv_percentile "SPY" [Num 100; Num 101; Num 102] None
  = Raise (ValueError ("Insufficient data for " ++ "SPY")%string).
Proof.
  apply (iv_percentile_needs_40_closes "SPY" [Num 100; Num 101; Num 102] None).
  unfold len. simpl. lia.
Defined.

(** X22.  The signal counts the history: [get_iv_percentile] says "SELL"
    exactly when at least three quarters of the historical volatilities
    are at or below the current value, and "WAIT" exactly when at most one
    quarter are. *)
Theorem iv_signal_counts_history
    (t : string) (close : Series) (atm_iv : option float64)
    (r : IvPercentile) :
  get_iv_percentile t close atm_iv = Ok r ->
  exists hv_all civ,
    _hv_series close 20 = Ok hv_all
    /\ match atm_iv with
       | Some iv => Ok iv
       | None => iloc_last (dropna hv_all)
       end = Ok civ
    /\ (signal r = "SELL"%string
        <-> (3 * List.length (dropna hv_all)
             <= 4 * count_le (dropna hv_all) civ)%nat)
    /\ (signal r = "WAIT"%string
        <-> (4 * count_le (dropna hv_all) civ
             <= List.length (dropna hv_all))%nat).
Proof.
  intros H.
  destruct (get_iv_percentile_steps _ _ _ _ H)
    as [hv_all [civ [hi [lo [rank [Hhv [Hlen [Hciv [_ [_ [_ ->]]]]]]]]]]].
  exists hv_all, civ. split; [exact Hhv |]. split; [exact Hciv |].
  cbn [signal].
  assert (0 < List.length (dropna hv_all))%nat as Hn
    by (unfold len in Hlen; lia).
  pose proof (count_le_length (dropna hv_all) civ) as Hc.
  rewrite percentage_num by exact Hn.
  set (n := List.length (dropna hv_all)) in *.
  set (c := count_le (dropna hv_all) civ) in *.
  pose proof (percentage_ge_75 c n Hn) as H75.
  pose proof (percentage_le_25 c n Hn) as H25.
  unfold fge. cbn [fle]. unfold Rltb.
  destruct (Rlt_dec (INR c / INR n * 100) 75) as [Hlt | Hge]; cbn [negb].
  - destruct (Rlt_dec 25 (INR c / INR n * 100)) as [Hgt | Hle]; cbn [negb].
    + split; split; try discriminate; intros Hx.
      * apply H75 in Hx. lra.
      * apply H25 in Hx. lra.
    + split; split; try discriminate; try reflexivity; intros Hx.
      * apply H75 in Hx. lra.
      * apply H25. lra.
  - split; split; try discriminate; try reflexivity; intros Hx.
    + apply H75. lra.
    + apply H25 in Hx. lra.
Qed.

(** X23.  Forty closes suffice: on positive prices without gaps, at least
    40 of them, [get_iv_percentile] returns a result, with or without an
    implied volatility. *)
Theorem iv_percentile_succeeds
    (t : string) (ps : list R) (atm_iv : option float64) :
  Forall (fun r => 0 < r) ps -> (40 <= List.length ps)%nat ->
  exists r, get_iv_percentile t (map Num ps) atm_iv = Ok r.
Proof.
  intros Hp Hlen.
  destruct (hv_series_values ps 20 Hp) as [hv [H Hc]]; [lia |].
  apply (get_iv_percentile_returns t _ hv); [exact H |].
  unfold len. lia.
Qed.

(** A run on 40 closes of 100. *)
Lemma sample_iv_run :
  exists r, get_iv_percentile "SPY" (map Num (repeat 100 40)) None = Ok r.
Proof.
  destruct (hv_series_values (repeat 100 40) 20) as [hv [H Hc]];
    [apply repeat_positive; lra | lia |].
  apply (get_iv_percentile_returns "SPY" _ hv None); [exact H |].
  rewrite repeat_length in Hc. unfold len. lia.
Qed.

Lemma iv_percentile_succeeds_witness :
  exists r, get_iv_percentile "SPY" (map Num (repeat 100 40)) None = Ok r.
Proof.
  apply (iv_percentile_succeeds "SPY" (repeat 100 40) None).
  - apply repeat_positive. lra.
  - rewrite repeat_length. lia.
Defined.

Lemma iv_percentile_in_range_witness :
  exists r q,
    get_iv_percentile "SPY" (map Num (repeat 100 40)) None = Ok r
    /\ iv_percentile r = Num q /\ 0 <= q <= 100.
Proof.
  destruct sample_iv_run as [r Hr].
  destruct (iv_percentile_in_range _ _ _ _ Hr) as [q Hq].
  exists r, q. split; [exact Hr | exact Hq].
Defined.

Lemma iv_fallback_within_history_witness :
  exists r lo c hi k,
    get_iv_percentile "SPY" (map Num (repeat 100 40)) None = Ok r
    /\ low_iv r = Num lo /\ current_iv r = Num c /\ high_iv r = Num hi
    /\ iv_rank r = Num k
    /\ lo <= c <= hi /\ 0 <= k <= 100.
Proof.
  destruct sample_iv_run as [r Hr].
  destruct (iv_fallback_within_history _ _ _ Hr) as [lo [c [hi [k Hk]]]].
  exists r, lo, c, hi, k. split; [exact Hr | exact Hk].
Defined.

Lemma iv_signal_counts_history_witness :
  exists r hv_all civ,
    get_iv_percentile "SPY" (map Num (repeat 100 40)) None = Ok r
    /\ _hv_series (map Num (repeat 100 40)) 20 = Ok hv_all
    /\ iloc_last (dropna hv_all) = Ok civ
    /\ (signal r = "SELL"%string
        <-> (3 * List.length (dropna hv_all)
             <= 4 * count_le (dropna hv_all) civ)%nat).
Proof.
  destruct sample_iv_run as [r Hr].
  destruct (iv_signal_counts_history _ _ _ _ Hr)
    as [hv_all [civ [H1 [H2 [H3 _]]]]].
  exists r, hv_all, civ. repeat split; try assumption; apply H3.
Defined.

End IvPercentileExtras.

(** * The single-ticker scan of [premium_scanner] *)

Section ScanSingle.

Import PremiumScanner.

Lemma py_round_zero (v : R) (n : nat) : py_round (Num (v + - v)) n = Num 0.
Proof.
  cbn [py_round]. f_equal.
  replace ((v + - v) * 10 ^ n) with (IZR 0) by (simpl; ring).
  rewrite round_half_even_IZR. unfold Rdiv. ring.
Qed.

(** Every step of a run of [_scan_single] that returns a row without an
    implied volatility. *)
Lemma scan_single_fallback_steps
    (t : string) (close : Series) (row : Row) :
  _scan_single t close None = Ok (Some row) ->
  exists hv_all x,
    _hv_series close 20 = Ok hv_all
    /\ iloc_last (dropna hv_all) = Ok x
    /\ current_iv row = py_round x 4
    /\ realized_vol_20d row = py_round x 4
    /\ premium row = py_round (fsub x x) 4
    /\ (signal row = "SELL"%string -> flt (Num 0) (fsub x x) = true).
Proof.
  unfold _scan_single. intros H.
  destruct (_hv_series close 20) as [hv_all | e] eqn:Ehv; [| discriminate].
  cbn [bind] in H.
  destruct (len (dropna hv_all) <? 20)%Z; [discriminate |].
  destruct (iloc_last (dropna hv_all)) as [x | e] eqn:Ex; [| discriminate].
  cbn [bind] in H.
  destruct (_hv_series close 10) as [fast | e]; [| discriminate].
  cbn [bind] in H.
  destruct (_hv_series close 30) as [slow | e]; [| discriminate].
  cbn [bind] in H.
  assert (exists r, Ok (Some r) = Ok (Some row)
                    /\ current_iv r = py_round x 4
                    /\ realized_vol_20d r = py_round x 4
                    /\ premium r = py_round (fsub x x) 4
                    /\ (signal r = "SELL"%string
                        -> flt (Num 0) (fsub x x) = true))
    as [r [Hr Hfields]].
  { eexists. split; [exact H |].
    lazy beta iota delta [current_iv realized_vol_20d premium signal].
    do 3 (split; [reflexivity |]).
    destruct (flt (Num 0) (fsub x x)); [reflexivity |].
    rewrite andb_false_r.
    destruct (fle _ _); discriminate. }
  assert (r = row) as <- by congruence.
  exists hv_all, x. split; [reflexivity |]. split; [exact Ex |].
  exact Hfields.
Qed.

(** X24.  Without an implied volatility from the options chain the
    scanner compares the realized volatility with itself: the row has
    [current_iv] equal to [realized_vol_20d] and a premium of 0, and its
    signal is never "SELL". *)
Theorem scan_without_iv_never_sells
    (t : string) (close : Series) (row : Row) :
  _scan_single t close None = Ok (Some row) ->
  current_iv row = realized_vol_20d row
  /\ premium row = Num 0
  /\ signal row <> "SELL"%string.
Proof.
  intros H.
  destruct (scan_single_fallback_steps _ _ _ H)
    as [hv_all [x [Hhv [Hx [Hc [Hr [Hp Hs]]]]]]].
  assert (exists v, x = Num v) as [v ->].
  { apply iloc_last_in in Hx.
    pose proof (hv_series_finite _ _ _ Hhv) as Hf.
    rewrite Forall_forall in Hf. apply finite_is_num. now apply Hf. }
  split; [congruence |]. split.
  - rewrite Hp. cbn [fsub fneg fadd]. apply py_round_zero.
  - intros E. apply Hs in E. cbn [fsub fneg fadd flt] in E.
    apply Rltb_inv in E. lra.
Qed.

(** [_scan_single] returns a row as soon as the history holds 20
    values. *)
Lemma scan_single_returns
    (t : string) (close hv_all : Series) (atm_iv : option float64) :
  _hv_series close 20 = Ok hv_all ->
  (20 <= len (dropna hv_all))%Z ->
  exists row, _scan_single t close atm_iv = Ok (Some row).
Proof.
  intros H Hlen. unfold _scan_single. rewrite H. cbn [bind]. decide_guard.
  assert (dropna hv_all <> []) as Hne
    by (intros E; rewrite E in Hlen; unfold len in Hlen; simpl in Hlen; lia).
  destruct (iloc_last_nonempty _ Hne) as [x Hx].
  assert (exists civ, match atm_iv with
                      | Some iv => Ok iv
                      | None => iloc_last (dropna hv_all)
                      end = Ok civ) as [civ ->]
    by (destruct atm_iv; eauto).
  cbn [bind]. rewrite Hx. cbn [bind].
  destruct (hv_series_returns close 10) as [fast ->]; [lia |].
  cbn [bind].
  destruct (hv_series_returns close 30) as [slow ->]; [lia |].
  cbn [bind]. eauto.
Qed.

Lemma scan_without_iv_never_sells_witness :
  exists row,
    _scan_single "SPY" (map Num (repeat 100 40)) None = Ok (Some row)
    /\ current_iv row = realized_vol_20d row
    /\ premium row = Num 0
    /\ signal row <> "SELL"%string.
Proof.
  destruct (hv_series_values (repeat 100 40) 20) as [hv [H Hc]];
    [apply repeat_positive; lra | lia |].
  destruct (scan_single_returns "SPY" _ hv None H) as [row Hrow].
  { rewrite repeat_length in Hc. unfold len. lia. }
  exists row. split; [exact Hrow |].
  exact (scan_without_iv_never_sells _ _ _ Hrow).
Defined.

(** X25.  The scanner skips a short history: on fewer than 40 closes
    [_scan_single] returns [None], whatever the prices are. *)
Theorem scan_skips_short_history
    (t : string) (close : Series) (atm_iv : option float64) :
  (len close < 40)%Z -> _scan_single t close atm_iv = Ok None.
Proof.
  intros Hlen. unfold _scan_single.
  destruct (hv_series_returns close 20) as [hv H]; [lia |].
  rewrite H. cbn [bind].
  destruct (hv_series_count close hv 20) as [_ Hc]; [lia | exact H |].
  unfold len in *.
  replace (Z.of_nat (List.length (dropna hv)) <? 20)%Z with true;
    [reflexivity |].
  symmetry. apply Z.ltb_lt. lia.
Qed.

Lemma scan_skips_short_history_witness :
  _scan_single "SPY" [Num 100; Num 101; Num 102] None = Ok None.
Proof.
  apply (scan_skips_short_history "SPY" [Num 100; Num 101; Num 102] None).
  unfold len. simpl. lia.
Defined.

End ScanSingle.

(** * The outlook line of the [forecast] command *)

Section Outlook.

Lemma not_above_itself (x : float64) :
  not_negative x ->
  flt (fmul x (Num (11 / 10))) x = false
  /\ flt x (fmul x (Num (9 / 10))) = false.
Proof.
  destruct x as [a | | |]; cbn [not_negative fmul flt]; intros H;
    try contradiction.
  - split; apply Rltb_false; lra.
  - rewrite (Reqb_false (11 / 10) 0), (Rltb_false (11 / 10) 0),
      (Reqb_false (9 / 10) 0), (Rltb_false (9 / 10) 0) by lra.
    now split.
  - now split.
Qed.

Lemma forecast_outlook_stable (d : GarchForecast) :
  not_negative (current_vol d) ->
  forecast_vol d = current_vol d ->
  forecast_outlook d
  = (String (ascii_of_nat 10) EmptyString
       ++ "  Outlook: Vol expected to remain STABLE.")%string.
Proof.
  intros Hn E. unfold forecast_outlook. rewrite E.
  destruct (not_above_itself _ Hn) as [-> ->]. reflexivity.
Qed.

(** X26.  With horizon 0, or with a persistence of 1 or more and any
    horizon [h >= 0], the [forecast] command reports a stable outlook. *)
Theorem outlook_stable_without_reversion
    (fit : Series -> result ARCHModelResult) (returns : Series) (h : Z)
    (res : ARCHModelResult) (w a b c : R) :
  (100 <= len (dropna returns))%Z ->
  fit (scale (dropna returns) (Num 100)) = Ok res ->
  omega res = Num w -> alpha res = Num a -> beta res = Num b ->
  iloc_last (conditional_volatility res) = Ok (Num c) ->
  h = 0%Z \/ ((0 <= h)%Z /\ 1 <= a + b) ->
  exists d,
    forecast_garch fit returns h = Ok d
    /\ forecast_outlook d
       = (String (ascii_of_nat 10) EmptyString
            ++ "  Outlook: Vol expected to remain STABLE.")%string.
Proof.
  intros Hlen Hfit Hw Ha Hb Hc Hcase.
  destruct (forecast_at_current_level fit returns h res w a b c
              Hlen Hfit Hw Ha Hb Hc Hcase) as [d [Hd E]].
  exists d. split; [exact Hd |].
  apply forecast_outlook_stable; [| exact E].
  destruct (forecast_garch_steps _ _ _ _ Hd)
    as [res' [c' [cvol [fvol [hl [_ [_ [Hcv [_ [_ ->]]]]]]]]]].
  cbn [current_vol]. apply py_round_not_negative.
  now apply annualized_vol_result in Hcv.
Qed.

Lemma outlook_stable_without_reversion_witness :
  exists d,
    forecast_garch (constant_fit 1 (1 / 16) (1 / 16)) sample_returns 0 = Ok d
    /\ forecast_outlook d
       = (String (ascii_of_nat 10) EmptyString
            ++ "  Outlook: Vol expected to remain STABLE.")%string.
Proof.
  apply (outlook_stable_without_reversion
           (constant_fit 1 (1 / 16) (1 / 16)) sample_returns 0
           {| omega := Num 1; alpha := Num (1 / 16); beta := Num (1 / 16);
              conditional_volatility :=
                scale (dropna sample_returns) (Num 100) |}
           1 (1 / 16) (1 / 16) (1 / 100 * 100)).
  - apply Z.leb_le. reflexivity.
  - reflexivity.
  - reflexivity.
  - reflexivity.
  - reflexivity.
  - reflexivity.
  - left. reflexivity.
Defined.

(** X27.  The outlook follows mean reversion: for a persistence in
    [[0, 1)] and a horizon [h >= 0], the [forecast] command never reports
    an increase when the current variance is at or above the long-run
    variance, and never a decrease when it is at or below. *)
Theorem outlook_follows_reversion
    (fit : Series -> result ARCHModelResult) (returns : Series) (h : Z)
    (res : ARCHModelResult) (w a b c : R) :
  (100 <= len (dropna returns))%Z ->
  (0 <= h)%Z ->
  fit (scale (dropna returns) (Num 100)) = Ok res ->
  omega res = Num w -> alpha res = Num a -> beta res = Num b ->
  iloc_last (conditional_volatility res) = Ok (Num c) ->
  0 <= a + b < 1 ->
  exists d,
    forecast_garch fit returns h = Ok d
    /\ (w / (1 - (a + b)) <= c * c ->
        forecast_outlook d
        <> (String (ascii_of_nat 10) EmptyString
              ++ "  Outlook: Vol expected to INCREASE - consider waiting.")%string)
    /\ (c * c <= w / (1 - (a + b)) ->
        forecast_outlook d
        <> (String (ascii_of_nat 10) EmptyString
              ++ "  Outlook: Vol expected to DECREASE - good window to sell.")%string).
Proof.
  intros Hlen Hh Hfit Hw Ha Hb Hc Hp.
  destruct (forecast_between_levels fit returns h res w a b c
              Hlen Hh Hfit Hw Ha Hb Hc Hp)
    as [d [qc [qf [Hd [Ec [Ef [Hqc [Hup Hdown]]]]]]]].
  exists d. split; [exact Hd |].
  unfold forecast_outlook. rewrite Ec, Ef. cbn [fmul flt].
  split; intros Hcase.
  - specialize (Hup Hcase).
    rewrite (Rltb_false (qc * (11 / 10)) qf) by lra.
    destruct (Rltb qf (qc * (9 / 10))); discriminate.
  - specialize (Hdown Hcase).
    rewrite (Rltb_false qf (qc * (9 / 10))) by lra.
    destruct (Rltb (qc * (11 / 10)) qf); discriminate.
Qed.

Lemma outlook_follows_reversion_witness :
  exists d,
    forecast_garch (constant_fit 1 (1 / 16) (1 / 16)) sample_returns 5 = Ok d
    /\ (1 / (1 - (1 / 16 + 1 / 16)) <= 1 / 100 * 100 * (1 / 100 * 100) ->
        forecast_outlook d
        <> (String (ascii_of_nat 10) EmptyString
              ++ "  Outlook: Vol expected to INCREASE - consider waiting.")%string)
    /\ (1 / 100 * 100 * (1 / 100 * 100) <= 1 / (1 - (1 / 16 + 1 / 16)) ->
        forecast_outlook d
        <> (String (ascii_of_nat 10) EmptyString
              ++ "  Outlook: Vol expected to DECREASE - good window to sell.")%string).
Proof.
  apply (outlook_follows_reversion
           (constant_fit 1 (1 / 16) (1 / 16)) sample_returns 5
           {| omega := Num 1; alpha := Num (1 / 16); beta := Num (1 / 16);
              conditional_volatility :=
                scale (dropna sample_returns) (Num 100) |}
           1 (1 / 16) (1 / 16) (1 / 100 * 100)).
  - apply Z.leb_le. reflexivity.
  - lia.
  - reflexivity.
  - reflexivity.
  - reflexivity.
  - reflexivity.
  - reflexivity.
  - lra.
Defined.

End Outlook.

(** * The pair loop of [correlation] *)

Section CorrelationLoop.

Import Correlation.

Variables (data : ReturnData) (threshold : float64).

Lemma enumerate_from_cons {A : Type} (k : nat) (x : A) (l : list A) :
  enumerate_from k (x :: l) = (k, x) :: enumerate_from (S k) l.
Proof. reflexivity. Qed.

Lemma enumerate_from_app {A : Type} (a b : list A) (k : nat) :
  enumerate_from k (a ++ b)
  = enumerate_from k a ++ enumerate_from (k + List.length a) b.
Proof.
  revert k. induction a as [|x a IH]; intros k.
  - simpl. now rewrite Nat.add_0_r.
  - rewrite <- app_comm_cons, !enumerate_from_cons, IH.
    simpl. now rewrite Nat.add_succ_r.
Qed.

(** Positions up to [i] are skipped. *)
Lemma pair_step_skip (l : list string) (k i : nat) (t1 : string)
    (st : list (string * string) * list Regime) :
  (k + List.length l <= S i)%nat ->
  fold_left (pair_step data threshold i t1) (enumerate_from k l) st = st.
Proof.
  revert k st. induction l as [|x l IH]; intros k st H; [reflexivity |].
  rewrite enumerate_from_cons. cbn [fold_left].
  assert (pair_step data threshold i t1 st (k, x) = st) as ->.
  { unfold pair_step. destruct st as [seen results].
    replace (k <=? i)%nat with true; [reflexivity |].
    symmetry. apply Nat.leb_le. simpl in H. lia. }
  apply IH. simpl in H. lia.
Qed.

(** Positions after [i] are handled by their key. *)
Lemma pair_step_later (l : list string) (k i : nat) (t1 : string)
    (st : list (string * string) * list Regime) :
  (i < k)%nat ->
  fold_left (pair_step data threshold i t1) (enumerate_from k l) st
  = fold_left (key_step data threshold) (map (fun b => (t1, b)) l) st.
Proof.
  revert k st. induction l as [|x l IH]; intros k st H; [reflexivity |].
  rewrite enumerate_from_cons. cbn [fold_left map].
  assert (pair_step data threshold i t1 st (k, x)
          = key_step data threshold st (t1, x)) as ->.
  { unfold pair_step, key_step, both_in_columns. destruct st as [seen results].
    replace (k <=? i)%nat with false
      by (symmetry; apply Nat.leb_gt; lia).
    cbn [fst snd].
    destruct (in_seen (t1, x) seen); [reflexivity |].
    destruct (in_columns data t1), (in_columns data x); reflexivity. }
  apply IH. lia.
Qed.

(** The inner loop for the ticker at position [length pre]. *)
Lemma inner_loop (pre post : list string) (t1 : string)
    (st : list (string * string) * list Regime) :
  fold_left (pair_step data threshold (List.length pre) t1)
            (enumerate_from 0 (pre ++ t1 :: post)) st
  = fold_left (key_step data threshold) (map (fun b => (t1, b)) post) st.
Proof.
  rewrite enumerate_from_app, fold_left_app.
  rewrite (pair_step_skip pre 0) by lia.
  rewrite enumerate_from_cons. cbn [fold_left].
  assert (pair_step data threshold (List.length pre) t1 st
                    ((0 + List.length pre)%nat, t1) = st) as ->.
  { unfold pair_step. destruct st as [seen results].
    replace (0 + List.length pre <=? List.length pre)%nat with true;
      [reflexivity |].
    symmetry. apply Nat.leb_le. lia. }
  apply pair_step_later. lia.
Qed.

(** The outer loop from position [length pre] on. *)
Lemma outer_loop (suf pre : list string)
    (st : list (string * string) * list Regime) :
  fold_left
    (fun st it =>
       fold_left (pair_step data threshold (fst it) (snd it))
                 (enumerate_from 0 (pre ++ suf)) st)
    (enumerate_from (List.length pre) suf) st
  = fold_left (key_step data threshold) (ordered_pairs suf) st.
Proof.
  revert pre st. induction suf as [|t1 post IH]; intros pre st;
    [reflexivity |].
  rewrite enumerate_from_cons. cbn [fold_left fst snd ordered_pairs].
  rewrite inner_loop, fold_left_app.
  replace (pre ++ t1 :: post) with ((pre ++ [t1]) ++ post)
    by (now rewrite <- app_assoc).
  replace (S (List.length pre)) with (List.length (pre ++ [t1]))
    by (rewrite length_app; simpl; lia).
  apply IH.
Qed.

(** What a run of key steps leaves in [seen] and in [results]. *)
Lemma key_steps (keys seen : list (string * string)) (results : list Regime) :
  fold_left (key_step data threshold) keys (seen, results)
  = (rev (first_seen seen keys) ++ seen,
     results
     ++ map (fun key => regime_entry data threshold (fst key) (snd key))
            (filter (both_in_columns data) (first_seen seen keys))).
Proof.
  revert seen results. induction keys as [|k ks IH]; intros seen results.
  - simpl. now rewrite app_nil_r.
  - cbn [fold_left first_seen]. unfold key_step at 2.
    destruct (in_seen k seen); [apply IH |].
    destruct (both_in_columns data k) eqn:Ec; rewrite IH.
    + cbn [rev filter]. rewrite Ec. cbn [map].
      rewrite <- !app_assoc. reflexivity.
    + cbn [rev filter]. rewrite Ec.
      rewrite <- !app_assoc. reflexivity.
Qed.

(** The result of the two loops. *)
Lemma regime_loop_results (tickers : list string) :
  snd (regime_loop data threshold tickers)
  = map (fun key => regime_entry data threshold (fst key) (snd key))
        (filter (both_in_columns data)
                (first_seen [] (ordered_pairs tickers))).
Proof.
  unfold regime_loop.
  pose proof (outer_loop tickers [] ([], [])) as H.
  cbn [app List.length] in H. rewrite H, key_steps. reflexivity.
Qed.

Lemma detect_correlation_regime_value (tickers : list string) :
  (2 <= List.length tickers)%nat -> (120 <= n_returns data)%Z ->
  detect_correlation_regime tickers threshold data
  = Ok (map (fun key => regime_entry data threshold (fst key) (snd key))
            (filter (both_in_columns data)
                    (first_seen [] (ordered_pairs tickers)))).
Proof.
  intros Hn Hr. unfold detect_correlation_regime.
  replace (Z.of_nat (List.length tickers) <? 2)%Z with false
    by (symmetry; apply Z.ltb_ge; lia).
  replace (n_returns data <? 120)%Z with false
    by (symmetry; apply Z.ltb_ge; lia).
  now rewrite regime_loop_results.
Qed.

Lemma in_seen_false (key k : string * string) (seen : list (string * string)) :
  key <> k -> in_seen key seen = false -> in_seen key (k :: seen) = false.
Proof.
  intros Hne H. unfold in_seen in *. cbn [existsb]. rewrite H.
  rewrite orb_false_r. destruct key as [a b], k as [c d]. cbn [fst snd].
  destruct (String.eqb_spec a c) as [-> |]; [| reflexivity].
  destruct (String.eqb_spec b d) as [-> |]; [| reflexivity].
  now contradiction Hne.
Qed.

(** Keys without repetition, none of them seen, are all first seen. *)
Lemma first_seen_nodup (keys seen : list (string * string)) :
  NoDup keys -> (forall k, In k keys -> in_seen k seen = false) ->
  first_seen seen keys = keys.
Proof.
  revert seen. induction keys as [|k ks IH]; intros seen Hnd Hs;
    [reflexivity |].
  cbn [first_seen]. rewrite (Hs k) by now left.
  inversion Hnd as [| ? ? Hk Hks]; subst.
  f_equal. apply IH; [exact Hks |].
  intros k' Hin. apply in_seen_false.
  - intros ->. contradiction.
  - apply Hs. now right.
Qed.

Lemma in_ordered_pairs (l : list string) (a b : string) :
  In (a, b) (ordered_pairs l) -> In a l /\ In b l.
Proof.
  induction l as [|t rest IH]; [contradiction |].
  cbn [ordered_pairs]. intros H. apply in_app_or in H as [H | H].
  - apply in_map_iff in H as [x [E Hx]]. injection E as <- <-.
    split; [now left | now right].
  - destruct (IH H). split; now right.
Qed.

Lemma NoDup_map_with (t : string) (l : list string) :
  NoDup l -> NoDup (map (fun b => (t, b)) l).
Proof.
  induction 1 as [| x l Hx Hl IH]; cbn [map]; constructor; [| exact IH].
  intros H. apply in_map_iff in H as [y [E Hy]].
  injection E as ->. contradiction.
Qed.

Lemma NoDup_ordered_pairs (l : list string) :
  NoDup l -> NoDup (ordered_pairs l).
Proof.
  induction l as [|t rest IH]; intros Hnd; [constructor |].
  inversion Hnd as [| ? ? Ht Hrest]; subst.
  cbn [ordered_pairs]. apply NoDup_app.
  - now apply NoDup_map_with.
  - now apply IH.
  - intros [a b] H1 H2. apply in_map_iff in H1 as [x [E Hx]].
    injection E as <- <-. apply in_ordered_pairs in H2 as [H2 _].
    contradiction.
Qed.

Lemma length_ordered_pairs (l : list string) :
  (2 * List.length (ordered_pairs l)
   = List.length l * (List.length l - 1))%nat.
Proof.
  induction l as [|t rest IH]; [reflexivity |].
  cbn [ordered_pairs]. rewrite length_app, length_map.
  cbn [List.length]. nia.
Qed.

Lemma filter_all {A : Type} (f : A -> bool) (l : list A) :
  (forall x, In x l -> f x = true) -> filter f l = l.
Proof.
  induction l as [|x l IH]; intros H; [reflexivity |].
  cbn [filter]. rewrite (H x) by now left.
  f_equal. apply IH. intros y Hy. apply H. now right.
Qed.

(** X28.  The two loops of [detect_correlation_regime] visit the ordered
    pairs of the ticker list, first ticker before second: for at least two
    tickers and at least 120 returns the result has one entry for each
    such pair that occurs for the first time and has both tickers among
    the columns, in the order of the pairs. *)
Theorem regime_entries_are_first_pairs (tickers : list string) :
  (2 <= List.length tickers)%nat -> (120 <= n_returns data)%Z ->
  detect_correlation_regime tickers threshold data
  = Ok (map (fun key => regime_entry data threshold (fst key) (snd key))
            (filter (both_in_columns data)
                    (first_seen [] (ordered_pairs tickers)))).
Proof.
  intros Hn Hr. unfold detect_correlation_regime.
  replace (Z.of_nat (List.length tickers) <? 2)%Z with false
    by (symmetry; apply Z.ltb_ge; lia).
  replace (n_returns data <? 120)%Z with false
    by (symmetry; apply Z.ltb_ge; lia).
  f_equal. apply regime_loop_results.
Qed.

(** X29.  For [n >= 2] different tickers that all have data, and at least
    120 returns, [detect_correlation_regime] returns one entry for every
    pair of tickers, [n * (n - 1) / 2] entries in all. *)
Theorem regime_entry_for_every_pair (tickers : list string) :
  NoDup tickers ->
  (forall t, In t tickers -> in_columns data t = true) ->
  (2 <= List.length tickers)%nat -> (120 <= n_returns data)%Z ->
  exists rows,
    detect_correlation_regime tickers threshold data = Ok rows
    /\ rows = map (fun key => regime_entry data threshold (fst key) (snd key))
                  (ordered_pairs tickers)
    /\ (2 * List.length rows
        = List.length tickers * (List.length tickers - 1))%nat.
Proof.
  intros Hnd Hcols Hn Hr. eexists. split; [| split; [reflexivity |]].
  - rewrite detect_correlation_regime_value by assumption.
    rewrite first_seen_nodup;
      [| now apply NoDup_ordered_pairs | reflexivity].
    rewrite filter_all; [reflexivity |].
    intros [a b] H. apply in_ordered_pairs in H as [Ha Hb].
    unfold both_in_columns. cbn [fst snd].
    now rewrite (Hcols a Ha), (Hcols b Hb).
  - rewrite length_map. apply length_ordered_pairs.
Qed.

End CorrelationLoop.

Lemma regime_entries_are_first_pairs_witness :
  Correlation.detect_correlation_regime
    ["SPY"; "QQQ"; "SPY"; "IWM"]%string (Num (85 / 100)) sample_correlations
  = Ok (map (fun key =>
               Correlation.regime_entry sample_correlations (Num (85 / 100))
                                        (fst key) (snd key))
            (filter (Correlation.both_in_columns sample_correlations)
                    (Correlation.first_seen []
                       (Correlation.ordered_pairs
                          ["SPY"; "QQQ"; "SPY"; "IWM"]%string)))).
Proof.
  apply (regime_entries_are_first_pairs sample_correlations (Num (85 / 100))
           ["SPY"; "QQQ"; "SPY"; "IWM"]%string).
  - simpl. lia.
  - simpl. lia.
Defined.

Lemma regime_entry_for_every_pair_witness :
  exists rows,
    Correlation.detect_correlation_regime
      ["SPY"; "QQQ"; "IWM"]%string (Num (85 / 100)) sample_correlations
    = Ok rows
    /\ rows = map (fun key =>
                     Correlation.regime_entry sample_correlations
                                              (Num (85 / 100))
                                              (fst key) (snd key))
                  (Correlation.ordered_pairs ["SPY"; "QQQ"; "IWM"]%string)
    /\ (2 * List.length rows = 3 * (3 - 1))%nat.
Proof.
  apply (regime_entry_for_every_pair sample_correlations (Num (85 / 100))
           ["SPY"; "QQQ"; "IWM"]%string).
  - repeat constructor; simpl; intuition discriminate.
  - intros t [<- | [<- | [<- | []]]]; reflexivity.
  - simpl. lia.
  - simpl. lia.
Defined.
